(** * Normalisation of AcoustID lookup responses

    Shallow embedding of [backend/modules/apis/acoustid.py]: the functions
    [_parse_lookup_result], [_extract_recordings], [_merge_matching_recordings],
    [_filter_out_compilations_from_releasegroups], [_get_results_for_recordings],
    [_get_result_for_releasegroup] and [_join_artist_names].

    Python dicts of a known shape are records whose fields are options
    ([None] = the key is absent); [d["k"]] on an absent key raises [KeyError].
    The artist dicts of recordings are the only objects the module writes to
    ([artist.setdefault("id", "")]); they live in a heap and recordings hold
    references to them, so that sharing between the input and the merged
    recordings is visible.  The module-level list
    [titles_identified_by_acoustid] is the second component of the state. *)

From stdpp Require Import base list strings.

(** ** Data model *)

(** References to the artist dicts of recordings. *)
Definition loc := nat.

(** An artist dict: [{"id"?: str, "name": str}]. *)
Record Artist := mkArtist {
  artist_id : option string;
  artist_name : option string
}.

(** A release group dict.  Its artists are decoded JSON that nothing
    writes to, hence plain values. *)
Record ReleaseGroup := mkReleaseGroup {
  rg_id : option string;
  rg_title : option string;
  rg_name : option string;
  rg_artists : option (list Artist);
  rg_secondarytypes : option (list string)
}.

(** A recording dict; also the shape of the merged recordings that
    [_merge_matching_recordings] builds.  ["artists"] is a list of
    references into the heap. *)
Record Recording := mkRecording {
  rec_title : option string;
  rec_artists : option (list loc);
  rec_releasegroups : option (list ReleaseGroup)
}.

Record ResultEntry := mkResultEntry {
  recordings : option (list Recording)
}.

Record LookupResponse := mkLookupResponse {
  status : option string;
  results : option (list ResultEntry)
}.

(** The dict returned by [_get_result_for_releasegroup]. *)
Record TrackMetadata := mkTrackMetadata {
  artist : string;
  title : string;
  album : option string;
  albumartist : option string
}.

Global Instance Artist_eq_dec : EqDecision Artist.
Proof. solve_decision. Defined.
Global Instance ReleaseGroup_eq_dec : EqDecision ReleaseGroup.
Proof. solve_decision. Defined.
Global Instance Recording_eq_dec : EqDecision Recording.
Proof. solve_decision. Defined.
Global Instance TrackMetadata_eq_dec : EqDecision TrackMetadata.
Proof. solve_decision. Defined.

(** ** Exceptions and the state monad *)

Inductive exn :=
  | KeyError (key : string)
  | WebServiceError (msg : string).

Inductive result (A : Type) :=
  | Ok (a : A)
  | Raise (e : exn).
Arguments Ok {A} a.
Arguments Raise {A} e.

Global Instance exn_eq_dec : EqDecision exn.
Proof. solve_decision. Defined.

(** The mutable world: the artist dicts and the global submission list. *)
Record state := mkState {
  heap : loc -> Artist;
  titles_identified_by_acoustid : list string
}.

(** A computation returns or raises; the state survives an exception. *)
Definition M (A : Type) : Type := state -> result A * state.

Definition ret {A} (a : A) : M A := fun s => (Ok a, s).

Definition bind {A B} (c : M A) (k : A -> M B) : M B :=
  fun s =>
    match c s with
    | (Ok a, s') => k a s'
    | (Raise e, s') => (Raise e, s')
    end.

Definition raise {A} (e : exn) : M A := fun s => (Raise e, s).

(** Embedding of a computation that touches no state. *)
Definition lift {A} (r : result A) : M A := fun s => (r, s).

Declare Scope py_scope.
Delimit Scope py_scope with py.
Notation "x <- c1 ;; c2" := (bind c1 (fun x => c2))
  (at level 100, c1 at next level, right associativity) : py_scope.
Open Scope py_scope.

Definition rbind {A B} (r : result A) (k : A -> result B) : result B :=
  match r with
  | Ok a => k a
  | Raise e => Raise e
  end.

(** [for x in l: acc = body(acc, x)] *)
Fixpoint for_each {A B} (body : A -> B -> M A) (l : list B) (acc : A) : M A :=
  match l with
  | [] => ret acc
  | x :: l' => acc' <- body acc x ;; for_each body l' acc'
  end.

(** [[f(x) for x in l]] with an effectful [f], evaluated left to right. *)
Fixpoint comprehension {A B} (f : A -> M B) (l : list A) : M (list B) :=
  match l with
  | [] => ret []
  | x :: l' => y <- f x ;; ys <- comprehension f l' ;; ret (y :: ys)
  end.

(** The same for a computation without state. *)
Fixpoint rcomprehension {A B} (f : A -> result B) (l : list A) : result (list B) :=
  match l with
  | [] => Ok []
  | x :: l' => rbind (f x) (fun y => rbind (rcomprehension f l') (fun ys => Ok (y :: ys)))
  end.

(** [d[key]] on a record field. *)
Definition getitem {A} (key : string) (field : option A) : result A :=
  match field with
  | Some v => Ok v
  | None => Raise (KeyError key)
  end.

(** ** Insertion-ordered dicts with string keys

    Python dicts keep insertion order and assigning to an existing key keeps
    its position; the merger's output order depends on both. *)

Definition dict (V : Type) := list (string * V).

Fixpoint dict_get {V} (k : string) (d : dict V) : option V :=
  match d with
  | [] => None
  | (k', v) :: d' => if String.eqb k k' then Some v else dict_get k d'
  end.

(** [k in d] *)
Definition dict_in {V} (k : string) (d : dict V) : bool :=
  match dict_get k d with Some _ => true | None => false end.

(** [d[k] = v] *)
Fixpoint dict_set {V} (k : string) (v : V) (d : dict V) : dict V :=
  match d with
  | [] => [(k, v)]
  | (k', v') :: d' =>
      if String.eqb k k' then (k, v) :: d' else (k', v') :: dict_set k v d'
  end.

(** [d[k]] on a dynamic dict. *)
Definition dict_getitem {V} (k : string) (d : dict V) : result V :=
  match dict_get k d with
  | Some v => Ok v
  | None => Raise (KeyError k)
  end.

(** ** utils.list_helper *)

Module list_helper.

(** Modelled from the spec: [utils.list_helper.flatten] is not among the
    sources.  Section 4.2: the concatenation of the given lists, in order. *)
Definition flatten {A} (lists : list (list A)) : list A := concat lists.

(** Modelled from the spec: [utils.list_helper.remove_duplicate_dicts] is
    not among the sources.  Section 4.3: deduplication by full structural
    equality, preserving first-occurrence order. *)
Definition remove_duplicate_dicts {A} `{EqDecision A} (dicts : list A) : list A :=
  fold_left (fun seen d => if decide (d ∈ seen) then seen else seen ++ [d]) dicts [].

End list_helper.

(** ** The module *)

(** [_join_artist_names] *)
Definition _join_artist_names (artists : list Artist) : result string :=
  rbind (rcomprehension (fun artist => getitem "name" (artist_name artist)) artists)
        (fun names => Ok (String.concat "; " names)).

(** [_get_result_for_releasegroup] *)
Definition _get_result_for_releasegroup
    (releasegroup : ReleaseGroup) (artist_name : string) (title : string)
    : result TrackMetadata :=
  rbind (match rg_artists releasegroup with
         | Some artists => rbind (_join_artist_names artists) (fun n => Ok (Some n))
         | None => Ok None
         end)
    (fun album_artist_name =>
       let album_title :=
         match rg_title releasegroup with
         | Some t => Some t
         | None => match rg_name releasegroup with
                   | Some n => Some n
                   | None => None
                   end
         end in
       Ok {| artist := artist_name; title := title;
             album := album_title; albumartist := album_artist_name |}).

(** [_filter_out_compilations_from_releasegroups] *)
Definition _filter_out_compilations_from_releasegroups
    (releasegroups : list ReleaseGroup) : list ReleaseGroup :=
  let filtered_releasegroups :=
    filter (fun releasegroup => rg_secondarytypes releasegroup = None) releasegroups in
  if negb (length filtered_releasegroups =? 0) then filtered_releasegroups
  else releasegroups.

(** Reading the artist dicts a list of references points to. *)
Definition deref (artists : list loc) : M (list Artist) :=
  fun s => (Ok (map (heap s) artists), s).

(** [if key not in titles_identified_by_acoustid: ....append(key)] *)
Definition register (key : string) : M unit :=
  fun s =>
    if decide (key ∈ titles_identified_by_acoustid s) then (Ok tt, s)
    else (Ok tt, {| heap := heap s;
                    titles_identified_by_acoustid :=
                      titles_identified_by_acoustid s ++ [key] |}).

(** Body of the loop of [_get_results_for_recordings]. *)
Definition results_body (results : list TrackMetadata) (recording : Recording)
    : M (list TrackMetadata) :=
  match rec_artists recording, rec_title recording with
  | Some artists, Some title =>
      artist_dicts <- deref artists ;;
      artist_name <- lift (_join_artist_names artist_dicts) ;;
      let titles_identified_key := title +:+ "_" +:+ artist_name in
      _ <- register titles_identified_key ;;
      releasegroups <- lift (getitem "releasegroups" (rec_releasegroups recording)) ;;
      for_each
        (fun results releasegroup =>
           r <- lift (_get_result_for_releasegroup releasegroup artist_name title) ;;
           ret (results ++ [r]))
        releasegroups results
  | _, _ => ret results
  end.

(** [_get_results_for_recordings] *)
Definition _get_results_for_recordings (recordings : list Recording)
    : M (list TrackMetadata) :=
  for_each results_body recordings [].

(** [artist.setdefault("id", "")]: returns the id, and writes [""] into the
    artist dict when it has none. *)
Definition setdefault_id (artist : loc) : M string :=
  fun s =>
    match artist_id (heap s artist) with
    | Some i => (Ok i, s)
    | None =>
        (Ok "",
         {| heap := fun l =>
              if decide (l = artist)
              then {| artist_id := Some ""; artist_name := artist_name (heap s artist) |}
              else heap s l;
            titles_identified_by_acoustid := titles_identified_by_acoustid s |})
    end.

(** The two local dicts of [_merge_matching_recordings]:
    [grouped_by_title_and_artist] and [artists_by_title_and_artist]. *)
Definition merge_dicts : Type :=
  dict (dict (list ReleaseGroup)) * dict (dict (list loc)).

(** [if title not in grouped_by_title_and_artist: ...[title] = {}] for both
    dicts.  The test reads the first dict only. *)
Definition ensure_title (title : string) (dicts : merge_dicts) : M merge_dicts :=
  if negb (dict_in title (fst dicts))
  then ret (dict_set title [] (fst dicts), dict_set title [] (snd dicts))
  else ret dicts.

(** [if artist_id not in grouped_by_title_and_artist[title]: ...] opens the
    bucket and captures [recording["artists"]].  Assigning through
    [d[title][artist_id] = v] updates the inner dict in place; here the inner
    dict is written back under [title], which keeps its position. *)
Definition ensure_bucket (title artist_id : string) (artists : list loc)
    (dicts : merge_dicts) : M merge_dicts :=
  entries <- lift (dict_getitem title (fst dicts)) ;;
  if negb (dict_in artist_id entries)
  then
    artist_entries <- lift (dict_getitem title (snd dicts)) ;;
    ret (dict_set title (dict_set artist_id [] entries) (fst dicts),
         dict_set title (dict_set artist_id artists artist_entries) (snd dicts))
  else ret dicts.

(** [grouped[title][artist_id] = grouped[title][artist_id] + recording["releasegroups"]] *)
Definition accumulate (title artist_id : string) (recording : Recording)
    (dicts : merge_dicts) : M merge_dicts :=
  entries <- lift (dict_getitem title (fst dicts)) ;;
  accumulated <- lift (dict_getitem artist_id entries) ;;
  releasegroups <- lift (getitem "releasegroups" (rec_releasegroups recording)) ;;
  ret (dict_set title (dict_set artist_id (accumulated ++ releasegroups) entries) (fst dicts),
       snd dicts).

(** Body of the loop of [_merge_matching_recordings]. *)
Definition merge_body (dicts : merge_dicts) (recording : Recording) : M merge_dicts :=
  match rec_title recording, rec_artists recording with
  | Some title, Some artists =>
      ids <- comprehension setdefault_id artists ;;
      let artist_id := String.concat "," ids in
      dicts <- ensure_title title dicts ;;
      dicts <- ensure_bucket title artist_id artists dicts ;;
      accumulate title artist_id recording dicts
  | _, _ => ret dicts  (* continue *)
  end.

(** One element of the returned list comprehension. *)
Definition merged_recording (artists_by : dict (dict (list loc))) (title : string)
    (item : string * list ReleaseGroup) : result Recording :=
  rbind (dict_getitem title artists_by) (fun artist_entries =>
  rbind (dict_getitem (fst item) artist_entries) (fun artists =>
  Ok {| rec_title := Some title;
        rec_artists := Some artists;
        rec_releasegroups :=
          Some (_filter_out_compilations_from_releasegroups
                  (list_helper.remove_duplicate_dicts (snd item))) |})).

(** [_merge_matching_recordings] *)
Definition _merge_matching_recordings (recordings : list Recording) : M (list Recording) :=
  dicts <- for_each merge_body recordings ([], []) ;;
  lift (rbind (rcomprehension
                 (fun item => rcomprehension (merged_recording (snd dicts) (fst item)) (snd item))
                 (fst dicts))
              (fun per_title => Ok (concat per_title))).

(** [_extract_recordings] *)
Definition _extract_recordings (results : list ResultEntry) : M (list Recording) :=
  let all_recordings := list_helper.flatten (omap recordings results) in
  _merge_matching_recordings all_recordings.

(** [_parse_lookup_result] *)
Definition _parse_lookup_result (data : LookupResponse) : M (list TrackMetadata) :=
  st <- lift (getitem "status" (status data)) ;;
  if negb (String.eqb st "ok") then raise (WebServiceError ("status: " +:+ st))
  else
    match results data with
    | None => raise (WebServiceError "results not included")
    | Some results =>
        recordings <- _extract_recordings results ;;
        _get_results_for_recordings recordings
    end.

(** ** Notions used to state the properties *)

(** First-insertion order of a sequence of dict keys: what [d.keys()] lists
    after the keys were assigned in the given order. *)
Definition insertion_order (keys : list string) : list string :=
  fold_left (fun seen k => if decide (k ∈ seen) then seen else seen ++ [k]) keys [].

(** Mapping a function over the values of a dict. *)
Definition dmap {V W} (f : V -> W) (d : dict V) : dict W :=
  map (fun item => (fst item, f (snd item))) d.

(** The id of an artist dict, [""] when it has none. *)
Definition id_or_empty (h : loc -> Artist) (l : loc) : string :=
  default "" (artist_id (h l)).

(** The artist key of the merger: the comma-joined artist ids. *)
Definition artist_key (h : loc -> Artist) (artists : list loc) : string :=
  String.concat "," (map (id_or_empty h) artists).

(** What [setdefault("id", "")] leaves in an artist dict. *)
Definition with_default_id (a : Artist) : Artist :=
  {| artist_id := Some (default "" (artist_id a)); artist_name := artist_name a |}.

(** [h'] is [h] after [setdefault("id", "")] on the artist dicts [A]. *)
Definition touched_by (A : list loc) (h h' : loc -> Artist) : Prop :=
  forall l, h' l = if decide (l ∈ A) then with_default_id (h l) else h l.

(** A recording the merger does not skip. *)
Definition complete (r : Recording) : Prop :=
  is_Some (rec_title r) /\ is_Some (rec_artists r).

Global Instance complete_dec r : Decision (complete r).
Proof. unfold complete. apply _. Defined.

(** The input contract on release groups: a recording with title and
    artists carries a ["releasegroups"] field. *)
Definition contract (recs : list Recording) : Prop :=
  Forall (fun r => complete r -> is_Some (rec_releasegroups r)) recs.

(** The (title, artist key) pair under which the merger files a recording. *)
Definition bucket_of (h : loc -> Artist) (r : Recording) : option (string * string) :=
  match rec_title r, rec_artists r with
  | Some t, Some a => Some (t, artist_key h a)
  | _, _ => None
  end.

(** The recordings filed under [(t, k)], in input order. *)
Definition members (h : loc -> Artist) (t k : string) (recs : list Recording)
    : list Recording :=
  filter (fun r => bucket_of h r = Some (t, k)) recs.

(** The artist dicts the merger calls [setdefault] on. *)
Definition touched (recs : list Recording) : list loc :=
  flat_map (fun r => match rec_title r, rec_artists r with
                     | Some _, Some a => a
                     | _, _ => []
                     end) recs.

(** Titles and, per title, artist keys in first-insertion order. *)
Definition seen_titles (h : loc -> Artist) (recs : list Recording) : list string :=
  insertion_order (omap (fun r => fst <$> bucket_of h r) recs).

Definition seen_keys (h : loc -> Artist) (t : string) (recs : list Recording)
    : list string :=
  insertion_order
    (omap (fun r => match bucket_of h r with
                    | Some (t', k) => if decide (t' = t) then Some k else None
                    | None => None
                    end) recs).

(** The merged recording of bucket [(t, k)]. *)
Definition merged_of (h : loc -> Artist) (recs : list Recording) (t k : string)
    : Recording :=
  let rs := members h t k recs in
  {| rec_title := Some t;
     rec_artists := head rs ≫= rec_artists;
     rec_releasegroups :=
       Some (_filter_out_compilations_from_releasegroups
               (list_helper.remove_duplicate_dicts
                  (concat (omap rec_releasegroups rs)))) |}.

(** The merger's output, title-major and artist-key-minor. *)
Definition merged (h : loc -> Artist) (recs : list Recording) : list Recording :=
  flat_map (fun t => map (merged_of h recs t) (seen_keys h t recs)) (seen_titles h recs).

(** The two local dicts of the merger seen as one dict of buckets. *)
Definition buckets : Type := dict (dict (list loc * list ReleaseGroup)).

Definition split_buckets (B : buckets) : merge_dicts :=
  (dmap (dmap snd) B, dmap (dmap fst) B).

(** The loop body of the merger on buckets, without effects. *)
Definition add_recording (h : loc -> Artist) (B : buckets) (r : Recording) : buckets :=
  match rec_title r, rec_artists r with
  | Some t, Some a =>
      let entries := default [] (dict_get t B) in
      let k := artist_key h a in
      let b := match dict_get k entries with
               | Some (a0, acc) => (a0, acc ++ default [] (rec_releasegroups r))
               | None => (a, default [] (rec_releasegroups r))
               end in
      dict_set t (dict_set k b entries) B
  | _, _ => B
  end.

(** Every artist dict of the list has a ["name"]. *)
Definition named (artists : list Artist) : Prop :=
  Forall (fun a => is_Some (artist_name a)) artists.

(** The names of the artist dicts, in order, joined with ["; "]. *)
Definition joined_names (artists : list Artist) : string :=
  String.concat "; " (omap artist_name artists).

Definition rg_named (releasegroup : ReleaseGroup) : Prop :=
  match rg_artists releasegroup with
  | Some artists => named artists
  | None => True
  end.

(** A recording on which the result builder raises no [KeyError]. *)
Definition buildable (h : loc -> Artist) (r : Recording) : Prop :=
  match rec_artists r, rec_title r with
  | Some a, Some _ =>
      named (map h a)
      /\ exists rgs, rec_releasegroups r = Some rgs /\ Forall rg_named rgs
  | _, _ => True
  end.

(** The record built for one release group. *)
Definition track_of (artist_names title : string) (releasegroup : ReleaseGroup)
    : TrackMetadata :=
  {| artist := artist_names;
     title := title;
     album := match rg_title releasegroup with
              | Some t => Some t
              | None => rg_name releasegroup
              end;
     albumartist := joined_names <$> rg_artists releasegroup |}.

(** The records built for one recording. *)
Definition tracks_of (h : loc -> Artist) (r : Recording) : list TrackMetadata :=
  match rec_artists r, rec_title r, rec_releasegroups r with
  | Some a, Some t, Some rgs => map (track_of (joined_names (map h a)) t) rgs
  | _, _, _ => []
  end.

(** The key under which the result builder registers a recording. *)
Definition registry_key (h : loc -> Artist) (r : Recording) : option string :=
  match rec_artists r, rec_title r with
  | Some a, Some t => Some (t +:+ "_" +:+ joined_names (map h a))
  | _, _ => None
  end.

(** [if key not in registry: registry.append(key)] *)
Definition record_key (h : loc -> Artist) (registry : list string) (r : Recording)
    : list string :=
  match registry_key h r with
  | Some key => if decide (key ∈ registry) then registry else registry ++ [key]
  | None => registry
  end.

(** ** The examples of the specification *)

Definition empty_heap : loc -> Artist := fun _ => mkArtist None None.

Definition heap_of (artists : list Artist) : loc -> Artist :=
  fun l => default (mkArtist None None) (artists !! l).

Definition rg (id : string) (t : option string) (sec : option (list string)) : ReleaseGroup :=
  mkReleaseGroup (Some id) t None None sec.

Definition example_a : LookupResponse :=
  mkLookupResponse (Some "ok") (Some
    [ mkResultEntry (Some [ mkRecording (Some "Thunderstruck") (Some [0])
                              (Some [rg "r1" (Some "The Razor's Edge") None]) ]);
      mkResultEntry (Some [ mkRecording (Some "Thunderstruck") (Some [1])
                              (Some [rg "r2" (Some "Celloverse") None]) ]) ]).

Definition example_a_state : state :=
  mkState (heap_of [mkArtist (Some "a1") (Some "AC/DC"); mkArtist (Some "a2") (Some "2Cellos")]) [].

Definition compilation : ReleaseGroup := rg "g1" (Some "Hits") (Some ["compilation"]).
Definition album_g2 : ReleaseGroup := rg "g2" (Some "Album") None.

(** Three recordings of two titles, interleaved. *)
Definition interleaved : list Recording :=
  [ mkRecording (Some "A") (Some [0]) (Some []);
    mkRecording (Some "B") (Some [1]) (Some []);
    mkRecording (Some "A") (Some [2]) (Some []) ].

Definition interleaved_state : state :=
  mkState (heap_of [ mkArtist (Some "x") (Some "X");
                     mkArtist (Some "y") (Some "Y");
                     mkArtist (Some "z") (Some "Z") ]) [].

(** Two recordings of one track: one on a compilation, one on an album. *)
Definition same_track : list ResultEntry :=
  [ mkResultEntry (Some [ mkRecording (Some "Foo") (Some [0]) (Some [compilation]) ]);
    mkResultEntry (Some [ mkRecording (Some "Foo") (Some [1]) (Some [album_g2]) ]) ].

Definition same_track_state : state :=
  mkState (heap_of [mkArtist (Some "x") (Some "X"); mkArtist (Some "x") (Some "X")]) [].

(** A recording with title and artists but no release groups. *)
Definition no_releasegroups : Recording := mkRecording (Some "Foo") (Some [0]) None.

(** ** Submission and the entry point of the lookup

    [submit] and [lookup] call the [acoustid] library and the logger of the
    application.  The calls are events of a trace and their outcomes are
    given by the environment: the library functions are parameters. *)

(** What a call into the [acoustid] library can raise. *)
Inductive acoustid_exception :=
  | FingerprintGenerationError
  | FingerprintSubmissionError
  | AcoustidWebServiceError
  | OtherException (name : string).

Inductive call_result (A : Type) :=
  | Returns (a : A)
  | Raises (e : acoustid_exception).
Arguments Returns {A} a.
Arguments Raises {A} e.

(** The metadata dict given to [submit]: any key may be absent, and
    ["album"], ["albumartist"] and ["year"] may be present with value
    [None], as in the dicts [lookup] returns. *)
Record Metadata := mkMetadata {
  md_title : option string;
  md_artist : option string;
  md_album : option (option string);
  md_albumartist : option (option string);
  md_year : option (option string)
}.

(** The dict [lookup] returns for a track, as a metadata dict. *)
Definition metadata_of (tm : TrackMetadata) : Metadata :=
  {| md_title := Some (title tm);
     md_artist := Some (artist tm);
     md_album := Some (album tm);
     md_albumartist := Some (albumartist tm);
     md_year := None |}.

Section submission.

(** Durations are floats the module only passes on. *)
Variable duration_t : Type.

(** [query_params] of [submit]. *)
Record QueryParams := mkQueryParams {
  q_duration : duration_t;
  q_fingerprint : string;
  q_track : option string;
  q_artist : option string;
  q_album : option string;
  q_albumartist : option string;
  q_year : option string
}.

(** What [submit] does to the outside. *)
Inductive event :=
  | FingerprintFile (file_name : string)
  | Submit (api_key user_key : string) (query_params : QueryParams)
  | LogError (e : acoustid_exception) (msg : string).

Inductive submit_outcome :=
  | Returned (b : bool)
  | RaisedKeyError (key : string)
  | Propagated (e : acoustid_exception).

(** [acoustid.fingerprint_file(file_name, force_fpcalc=True)] *)
Variable fingerprint_file : string -> call_result (duration_t * string).

(** [acoustid.submit(api_key, user_key, query_params)] *)
Variable acoustid_submit : string -> string -> QueryParams -> call_result unit.

(** [acoustid.lookup(api_key, fingerprint, fingerprint_duration, meta=...)];
    it raises [WebServiceError] when the request fails. *)
Variable acoustid_lookup :
  string -> string -> duration_t -> list string -> result LookupResponse.

Definition METADATA_ALL : list string := ["tracks"; "recordings"; "releasegroups"].

(** [d[key] if key in d else None] *)
Definition get_or_None {A} (field : option (option A)) : option A :=
  match field with
  | Some v => v
  | None => None
  end.

(** [submit] *)
Definition submit (file_name : string) (metadata : Metadata) (api_key user_key : string)
    (s : state) : submit_outcome * state * list event :=
  match md_title metadata with
  | None => (RaisedKeyError "title", s, [])
  | Some title =>
  match md_artist metadata with
  | None => (RaisedKeyError "artist", s, [])
  | Some artist =>
      let titles_identified_key := title +:+ "_" +:+ artist in
      if decide (titles_identified_key ∈ titles_identified_by_acoustid s)
      then (Returned false, s, [])
      else
        let s' := {| heap := heap s;
                     titles_identified_by_acoustid :=
                       titles_identified_by_acoustid s ++ [titles_identified_key] |} in
        match fingerprint_file file_name with
        | Raises FingerprintGenerationError =>
            (Returned false, s',
             [FingerprintFile file_name;
              LogError FingerprintGenerationError "AcoustID fingerprint generation error"])
        | Raises ex => (Propagated ex, s', [FingerprintFile file_name])
        | Returns (duration, fingerprint) =>
            let query_params :=
              {| q_duration := duration;
                 q_fingerprint := fingerprint;
                 q_track := Some title;
                 q_artist := Some artist;
                 q_album := get_or_None (md_album metadata);
                 q_albumartist := get_or_None (md_albumartist metadata);
                 q_year := get_or_None (md_year metadata) |} in
            let calls := [FingerprintFile file_name; Submit api_key user_key query_params] in
            match acoustid_submit api_key user_key query_params with
            | Returns _ => (Returned true, s', calls)
            | Raises FingerprintSubmissionError =>
                (Returned false, s',
                 calls ++ [LogError FingerprintSubmissionError "AcoustID submission error"])
            | Raises AcoustidWebServiceError =>
                (Returned false, s',
                 calls ++ [LogError AcoustidWebServiceError "AcoustID submit error"])
            | Raises ex => (Propagated ex, s', calls)
            end
        end
  end
  end.

(** [lookup] *)
Definition lookup (fingerprint : string) (fingerprint_duration : duration_t)
    (api_key : string) : M (list TrackMetadata) :=
  data <- lift (acoustid_lookup api_key fingerprint fingerprint_duration METADATA_ALL) ;;
  _parse_lookup_result data.

End submission.

Arguments FingerprintFile {duration_t} file_name.
Arguments Submit {duration_t} api_key user_key query_params.
Arguments LogError {duration_t} e msg.
Arguments mkQueryParams {duration_t}.
Arguments q_duration {duration_t} q.
Arguments q_fingerprint {duration_t} q.
Arguments q_track {duration_t} q.
Arguments q_artist {duration_t} q.
Arguments q_album {duration_t} q.
Arguments q_albumartist {duration_t} q.
Arguments q_year {duration_t} q.
Arguments submit {duration_t}.
Arguments lookup {duration_t}.

(** The registry only grows, by keys it does not contain yet. *)
Definition grows (before after : list string) : Prop :=
  exists new, after = before ++ new /\ (NoDup before -> NoDup after).

Global Instance contract_dec recs : Decision (contract recs).
Proof. unfold contract. apply _. Defined.

Global Instance named_dec artists : Decision (named artists).
Proof. unfold named. apply _. Defined.

Global Instance rg_named_dec g : Decision (rg_named g).
Proof. unfold rg_named. destruct (rg_artists g); apply _. Defined.

(** An environment for the examples: fingerprinting and submission succeed
    and the service answers with the response of example A. *)
Definition fingerprint_fine : string -> call_result (nat * string) :=
  fun _ => Returns (215, "AQADtEmU").

Definition fingerprint_broken : string -> call_result (nat * string) :=
  fun _ => Raises FingerprintGenerationError.

Definition submit_fine : string -> string -> QueryParams nat -> call_result unit :=
  fun _ _ _ => Returns tt.

Definition lookup_example_a : string -> string -> nat -> list string -> result LookupResponse :=
  fun _ _ _ _ => Ok example_a.

Definition thunderstruck : Metadata :=
  mkMetadata (Some "Thunderstruck") (Some "AC/DC") (Some (Some "The Razor's Edge"))
    (Some None) None.

(** The recordings the merger's loop gets to: all of them, or those up to
    and including the first one that has title and artists but no release
    groups, where [recording["releasegroups"]] raises. *)
Fixpoint reached (recs : list Recording) : list Recording :=
  match recs with
  | [] => []
  | r :: rest =>
      if decide (complete r /\ rec_releasegroups r = None) then [r]
      else r :: reached rest
  end.

(** Two recordings of one bucket whose artists lists differ. *)
Definition same_bucket : list Recording :=
  [ mkRecording (Some "Foo") (Some [0]) (Some [compilation]);
    mkRecording (Some "Foo") (Some [1]) (Some [album_g2]) ].

(** A recording without release groups followed by a well-formed one, with
    artist dicts that have no id. *)
Definition aborted : list Recording :=
  [ mkRecording (Some "Foo") (Some [0]) None;
    mkRecording (Some "Bar") (Some [1]) (Some [album_g2]) ].

Definition aborted_state : state :=
  mkState (heap_of [mkArtist None (Some "X"); mkArtist None (Some "Y")]) [].

Example example_a_output :
  fst (_parse_lookup_result example_a example_a_state)
  = Ok [ mkTrackMetadata "AC/DC" "Thunderstruck" (Some "The Razor's Edge") None;
         mkTrackMetadata "2Cellos" "Thunderstruck" (Some "Celloverse") None ].
Proof. vm_compute. reflexivity. Qed.

Example example_b_output :
  fst (_parse_lookup_result
         (mkLookupResponse (Some "ok") (Some
            [ mkResultEntry (Some
                [ mkRecording (Some "Foo") (Some [0]) (Some [rg "g1" None None]);
                  mkRecording (Some "Foo") (Some [1]) (Some [rg "g1" None None]) ]) ]))
         (mkState (heap_of [mkArtist (Some "x") (Some "X"); mkArtist (Some "x") (Some "X")]) []))
  = Ok [ mkTrackMetadata "X" "Foo" None None ].
Proof. vm_compute. reflexivity. Qed.

Example example_c_output :
  fst (_get_results_for_recordings
         [ mkRecording (Some "Foo") (Some [0])
             (Some (_filter_out_compilations_from_releasegroups
                      [ rg "g1" (Some "Hits") (Some ["compilation"]);
                        rg "g2" (Some "Album") None ])) ]
         (mkState (heap_of [mkArtist (Some "x") (Some "X")]) []))
  = Ok [ mkTrackMetadata "X" "Foo" (Some "Album") None ].
Proof. vm_compute. reflexivity. Qed.
(** ** Facts about dicts *)

Section dict_facts.
Context {V : Type}.
Implicit Types (d : dict V) (k : string) (v : V).

Lemma eqb_decide k k' : String.eqb k k' = bool_decide (k = k').
Proof.
  destruct (String.eqb_spec k k'); symmetry;
    [by apply bool_decide_eq_true | by apply bool_decide_eq_false].
Qed.

Lemma dict_get_set k k' v d :
  dict_get k' (dict_set k v d) = if decide (k' = k) then Some v else dict_get k' d.
Proof.
  induction d as [|[k0 v0] d IH]; simpl.
  - rewrite eqb_decide. case_bool_decide; case_decide; congruence.
  - rewrite (eqb_decide k k0). case_bool_decide; simpl; rewrite !eqb_decide.
    + subst. repeat case_bool_decide; case_decide; congruence.
    + rewrite IH. repeat case_bool_decide; case_decide; congruence.
Qed.

Lemma dict_get_None k d : dict_get k d = None <-> k ∉ d.*1.
Proof.
  induction d as [|[k0 v0] d IH]; simpl.
  - split; [intros _; apply not_elem_of_nil | done].
  - rewrite eqb_decide, not_elem_of_cons. case_bool_decide; split.
    + done.
    + intros [? _]. done.
    + intros. split; [done | by apply IH].
    + intros [_ ?]. by apply IH.
Qed.

Lemma dict_in_keys k d : dict_in k d = bool_decide (k ∈ d.*1).
Proof.
  unfold dict_in. destruct (dict_get k d) eqn:E.
  - symmetry. apply bool_decide_eq_true. destruct (decide (k ∈ d.*1)); [done|].
    apply dict_get_None in n. congruence.
  - symmetry. apply bool_decide_eq_false. by apply dict_get_None.
Qed.

Lemma dict_set_keys k v d :
  (dict_set k v d).*1 = if decide (k ∈ d.*1) then d.*1 else d.*1 ++ [k].
Proof.
  induction d as [|[k0 v0] d IH]; simpl.
  - done.
  - rewrite eqb_decide. case_bool_decide; csimpl.
    + subst. rewrite decide_True by left. done.
    + rewrite IH. destruct (decide (k ∈ d.*1)).
      * rewrite decide_True by (by right). done.
      * rewrite decide_False; [done|]. rewrite not_elem_of_cons. done.
Qed.

Lemma dict_set_set k v v' d : dict_set k v (dict_set k v' d) = dict_set k v d.
Proof.
  induction d as [|[k0 v0] d IH]; simpl.
  - by rewrite String.eqb_refl.
  - destruct (String.eqb k k0) eqn:E; simpl; rewrite ?E, ?String.eqb_refl; [done|].
    by rewrite IH.
Qed.

Lemma dict_lookup_item k v d : NoDup d.*1 -> (k, v) ∈ d -> dict_get k d = Some v.
Proof.
  induction d as [|[k0 v0] d IH]; simpl; intros Hnd Hin.
  - by apply elem_of_nil in Hin.
  - apply NoDup_cons in Hnd as [Hk0 Hnd]. rewrite eqb_decide.
    apply elem_of_cons in Hin as [Heq|Hin].
    + injection Heq as -> ->. by rewrite bool_decide_eq_true_2.
    + case_bool_decide; [|by apply IH].
      subst. exfalso. apply Hk0. apply list_elem_of_fmap. by exists (k0, v).
Qed.
End dict_facts.

Lemma dict_get_dmap {V W} (f : V -> W) k (d : dict V) :
  dict_get k (dmap f d) = f <$> dict_get k d.
Proof.
  induction d as [|[k0 v0] d IH]; simpl; [done|]. by destruct (String.eqb k k0).
Qed.

Lemma dict_in_dmap {V W} (f : V -> W) k (d : dict V) :
  dict_in k (dmap f d) = dict_in k d.
Proof. unfold dict_in. rewrite dict_get_dmap. by destruct (dict_get k d). Qed.

Lemma dict_set_dmap {V W} (f : V -> W) k v (d : dict V) :
  dict_set k (f v) (dmap f d) = dmap f (dict_set k v d).
Proof.
  induction d as [|[k0 v0] d IH]; simpl; [done|].
  destruct (String.eqb k k0); simpl; [done|]. by rewrite IH.
Qed.

Lemma insertion_order_snoc keys k :
  insertion_order (keys ++ [k])
  = if decide (k ∈ insertion_order keys) then insertion_order keys
    else insertion_order keys ++ [k].
Proof. unfold insertion_order. by rewrite fold_left_app. Qed.

Lemma insertion_order_elem keys k : k ∈ insertion_order keys <-> k ∈ keys.
Proof.
  induction keys as [|k0 keys IH] using rev_ind; [done|].
  rewrite insertion_order_snoc, elem_of_app, list_elem_of_singleton.
  destruct (decide (k0 ∈ insertion_order keys)) as [Hin|Hin].
  - split; [tauto|]. intros [Hk| ->]; [tauto | done].
  - rewrite elem_of_app, list_elem_of_singleton. tauto.
Qed.

Lemma insertion_order_NoDup keys : NoDup (insertion_order keys).
Proof.
  induction keys as [|k0 keys IH] using rev_ind.
  - constructor.
  - rewrite insertion_order_snoc. case_decide; [done|].
    apply NoDup_app. split_and!; [done | | apply NoDup_singleton].
    intros x Hx ->%list_elem_of_singleton. done.
Qed.

(** ** The heap and the merge loop *)

Lemma with_default_id_idem a : with_default_id (with_default_id a) = with_default_id a.
Proof. by destruct a as [[i|] n]. Qed.

Lemma touched_by_nil h : touched_by [] h h.
Proof. intros l. rewrite decide_False; [done | apply not_elem_of_nil]. Qed.

Lemma touched_by_app A B h h1 h2 :
  touched_by A h h1 -> touched_by B h1 h2 -> touched_by (A ++ B) h h2.
Proof.
  intros H1 H2 l. rewrite (H2 l), (H1 l).
  destruct (decide (l ∈ A)), (decide (l ∈ B)).
  - rewrite decide_True by (apply elem_of_app; auto). apply with_default_id_idem.
  - rewrite decide_True by (apply elem_of_app; auto). done.
  - rewrite decide_True by (apply elem_of_app; auto). done.
  - rewrite decide_False; [done|]. rewrite elem_of_app. tauto.
Qed.

Lemma touched_by_ids A h h' l : touched_by A h h' -> id_or_empty h' l = id_or_empty h l.
Proof.
  intros H. unfold id_or_empty. rewrite (H l). case_decide; [|done].
  by destruct (h l) as [[i|] n].
Qed.

Lemma artist_key_ext h h' artists :
  (forall l, id_or_empty h' l = id_or_empty h l) ->
  artist_key h' artists = artist_key h artists.
Proof.
  intros H. unfold artist_key. f_equal. apply map_ext. auto.
Qed.

Lemma setdefault_id_spec l s :
  exists s', setdefault_id l s = (Ok (id_or_empty (heap s) l), s')
    /\ touched_by [l] (heap s) (heap s')
    /\ titles_identified_by_acoustid s' = titles_identified_by_acoustid s.
Proof.
  unfold setdefault_id, id_or_empty.
  destruct (artist_id (heap s l)) as [i|] eqn:E.
  - exists s. split_and!; [done | | done].
    intros l'. case_decide as Hl; [|done].
    apply list_elem_of_singleton in Hl as ->.
    destruct (heap s l) as [i0 n]; simpl in *. by subst.
  - eexists. split_and!; [done | | done].
    intros l'. simpl. destruct (decide (l' = l)) as [->|Hne].
    + rewrite decide_True by (by apply list_elem_of_singleton).
      unfold with_default_id. by rewrite E.
    + rewrite decide_False; [done|]. by rewrite list_elem_of_singleton.
Qed.

Lemma bind_Ok {A B} (c : M A) (k : A -> M B) s a s' :
  c s = (Ok a, s') -> bind c k s = k a s'.
Proof. unfold bind. by intros ->. Qed.

Lemma bind_Raise {A B} (c : M A) (k : A -> M B) s e s' :
  c s = (Raise e, s') -> bind c k s = (Raise e, s').
Proof. unfold bind. by intros ->. Qed.

Lemma setdefault_ids_spec artists s :
  exists s', comprehension setdefault_id artists s
             = (Ok (map (id_or_empty (heap s)) artists), s')
    /\ touched_by artists (heap s) (heap s')
    /\ titles_identified_by_acoustid s' = titles_identified_by_acoustid s.
Proof.
  revert s. induction artists as [|l artists IH]; intros s.
  - exists s. split_and!; [done | apply touched_by_nil | done].
  - destruct (setdefault_id_spec l s) as (s1 & E1 & T1 & R1).
    destruct (IH s1) as (s2 & E2 & T2 & R2).
    exists s2. split_and!.
    + simpl. rewrite (bind_Ok _ _ _ _ _ E1). rewrite (bind_Ok _ _ _ _ _ E2).
      unfold ret. do 2 f_equal. simpl. f_equal.
      apply map_ext. intros l'. by apply touched_by_ids with [l].
    + by apply (touched_by_app [l] artists _ (heap s1)).
    + congruence.
Qed.

Lemma dict_set_same {V} k (v : V) d : dict_get k d = Some v -> dict_set k v d = d.
Proof.
  induction d as [|[k0 v0] d IH]; simpl; [done|].
  destruct (String.eqb_spec k k0) as [->|Hne].
  - by intros [= ->].
  - intros H. by rewrite IH.
Qed.

Lemma ensure_title_spec t B s :
  ensure_title t (split_buckets B) s
  = (Ok (split_buckets (match dict_get t B with
                        | Some _ => B
                        | None => dict_set t [] B
                        end)), s).
Proof.
  unfold ensure_title, split_buckets; cbn [fst snd].
  rewrite dict_in_dmap. unfold dict_in.
  destruct (dict_get t B); cbn [negb]; [done|].
  unfold ret. by rewrite <- !dict_set_dmap.
Qed.

Lemma ensure_bucket_spec t k a B entries s :
  dict_get t B = Some entries ->
  ensure_bucket t k a (split_buckets B) s
  = (Ok (split_buckets (match dict_get k entries with
                        | Some _ => B
                        | None => dict_set t (dict_set k (a, []) entries) B
                        end)), s).
Proof.
  intros Et. unfold ensure_bucket, split_buckets; cbn [fst snd].
  unfold bind, lift, dict_getitem. rewrite !dict_get_dmap, Et. cbn [fmap option_fmap option_map].
  rewrite dict_in_dmap. unfold dict_in.
  destruct (dict_get k entries); cbn [negb]; [done|].
  unfold ret. by rewrite <- !dict_set_dmap.
Qed.

Lemma accumulate_spec t k r B entries a0 acc s :
  dict_get t B = Some entries ->
  dict_get k entries = Some (a0, acc) ->
  accumulate t k r (split_buckets B) s
  = match rec_releasegroups r with
    | Some g => (Ok (split_buckets (dict_set t (dict_set k (a0, acc ++ g) entries) B)), s)
    | None => (Raise (KeyError "releasegroups"), s)
    end.
Proof.
  intros Et Ek. unfold accumulate, split_buckets; cbn [fst snd].
  unfold bind, lift, dict_getitem. rewrite !dict_get_dmap, Et. cbn [fmap option_fmap option_map].
  rewrite dict_get_dmap, Ek. cbn [fmap option_fmap option_map snd].
  destruct (rec_releasegroups r) as [g|]; cbn [getitem]; [|done].
  unfold ret. do 2 f_equal.
  rewrite <- !dict_set_dmap. f_equal.
  symmetry. apply dict_set_same. rewrite dict_get_dmap, Et. cbn. f_equal.
  symmetry. apply dict_set_same. by rewrite dict_get_dmap, Ek.
Qed.

Lemma merge_body_complete B r s t a :
  rec_title r = Some t -> rec_artists r = Some a ->
  exists s', touched_by a (heap s) (heap s')
    /\ titles_identified_by_acoustid s' = titles_identified_by_acoustid s
    /\ merge_body (split_buckets B) r s
       = match rec_releasegroups r with
         | Some _ => (Ok (split_buckets (add_recording (heap s) B r)), s')
         | None => (Raise (KeyError "releasegroups"), s')
         end.
Proof.
  intros Ht Ha.
  destruct (setdefault_ids_spec a s) as (s' & E & T & R).
  exists s'. split_and!; [done | done |].
  unfold merge_body. rewrite Ht, Ha. rewrite (bind_Ok _ _ _ _ _ E).
  fold (artist_key (heap s) a).
  rewrite (bind_Ok _ _ _ _ _ (ensure_title_spec _ _ _)).
  unfold add_recording. rewrite Ht, Ha. cbn zeta.
  set (k := artist_key (heap s) a).
  set (entries := from_option id [] (dict_get t B)).
  set (B1 := match dict_get t B with Some _ => B | None => dict_set t [] B end).
  assert (dict_get t B1 = Some entries) as E1.
  { subst B1 entries. destruct (dict_get t B) eqn:Et; [done|].
    rewrite dict_get_set. by rewrite decide_True. }
  assert (forall v, dict_set t v B1 = dict_set t v B) as S1.
  { intros v. subst B1. clear E1. destruct (dict_get t B); [reflexivity|]. apply dict_set_set. }
  rewrite (bind_Ok _ _ _ _ _ (ensure_bucket_spec _ _ _ _ _ _ E1)).
  destruct (dict_get k entries) as [[a0 acc]|] eqn:Ek.
  - rewrite (accumulate_spec _ _ _ _ _ _ _ _ E1 Ek).
    destruct (rec_releasegroups r); [|reflexivity]. by rewrite S1.
  - rewrite S1.
    rewrite (accumulate_spec t k r _ (dict_set k (a, []) entries) a []).
    + destruct (rec_releasegroups r); [|reflexivity].
      by rewrite !dict_set_set.
    + rewrite dict_get_set. by rewrite decide_True.
    + rewrite dict_get_set. by rewrite decide_True.
Qed.

(** ** The merge loop *)

Lemma merge_body_incomplete d r s : ~ complete r -> merge_body d r s = (Ok d, s).
Proof.
  unfold complete, merge_body. intros H.
  destruct (rec_title r), (rec_artists r); try done.
  exfalso. apply H. eauto.
Qed.

Lemma add_recording_incomplete h B r : ~ complete r -> add_recording h B r = B.
Proof.
  unfold complete, add_recording. intros H.
  destruct (rec_title r), (rec_artists r); try done.
  exfalso. apply H. eauto.
Qed.

Lemma add_recording_ext h h' B r :
  (forall l, id_or_empty h' l = id_or_empty h l) ->
  add_recording h' B r = add_recording h B r.
Proof.
  intros H. unfold add_recording.
  destruct (rec_title r), (rec_artists r); try done.
  by rewrite (artist_key_ext h h').
Qed.

Lemma fold_add_recording_ext h h' recs B :
  (forall l, id_or_empty h' l = id_or_empty h l) ->
  fold_left (add_recording h') recs B = fold_left (add_recording h) recs B.
Proof.
  intros H. revert B. induction recs as [|r recs IH]; intros B; simpl; [done|].
  by rewrite IH, (add_recording_ext h h').
Qed.

Lemma touched_cons_complete r recs t a :
  rec_title r = Some t -> rec_artists r = Some a ->
  touched (r :: recs) = a ++ touched recs.
Proof. intros Ht Ha. unfold touched. simpl. by rewrite Ht, Ha. Qed.

Lemma touched_cons_incomplete r recs :
  ~ complete r -> touched (r :: recs) = touched recs.
Proof.
  unfold complete, touched. intros H. simpl.
  destruct (rec_title r), (rec_artists r); try done.
  exfalso. apply H. eauto.
Qed.

Lemma for_each_app {A B} (body : A -> B -> M A) l1 l2 acc s :
  for_each body (l1 ++ l2) acc s = bind (for_each body l1 acc) (for_each body l2) s.
Proof.
  revert acc s. induction l1 as [|x l1 IH]; intros acc s; simpl; [reflexivity|].
  destruct (body acc x s) as [[acc'|e] s1] eqn:E.
  - rewrite (bind_Ok _ _ _ _ _ E), IH. unfold bind at 2 3. by rewrite E.
  - rewrite (bind_Raise _ _ _ _ _ E). unfold bind. by rewrite E.
Qed.

(** The loop of the merger, when every complete recording has release groups. *)
Lemma merge_loop_ok recs :
  contract recs -> forall B s,
  exists s', for_each merge_body recs (split_buckets B) s
             = (Ok (split_buckets (fold_left (add_recording (heap s)) recs B)), s')
    /\ touched_by (touched recs) (heap s) (heap s')
    /\ titles_identified_by_acoustid s' = titles_identified_by_acoustid s.
Proof.
  induction 1 as [|r recs Hr Hrecs IH]; intros B s.
  - exists s. split_and!; [done | apply touched_by_nil | done].
  - destruct (decide (complete r)) as [Hc|Hc].
    + destruct (Hr Hc) as [g Hg]. destruct Hc as [[t Ht] [a Ha]].
      destruct (merge_body_complete B r s t a Ht Ha) as (s1 & T1 & R1 & E1).
      rewrite Hg in E1.
      destruct (IH (add_recording (heap s) B r) s1) as (s2 & E2 & T2 & R2).
      exists s2. split_and!.
      * simpl. rewrite (bind_Ok _ _ _ _ _ E1), E2. do 3 f_equal.
        apply fold_add_recording_ext. intros l. by apply touched_by_ids with a.
      * rewrite (touched_cons_complete r recs t a Ht Ha).
        by apply touched_by_app with (heap s1).
      * congruence.
    + destruct (IH B s) as (s2 & E2 & T2 & R2). exists s2.
      rewrite (touched_cons_incomplete _ _ Hc). split_and!; [|done|done].
      simpl. rewrite (bind_Ok _ _ _ _ _ (merge_body_incomplete _ _ _ Hc)).
      by rewrite (add_recording_incomplete _ _ _ Hc).
Qed.

Lemma touched_app l1 l2 : touched (l1 ++ l2) = touched l1 ++ touched l2.
Proof. unfold touched. apply flat_map_app. Qed.

(** The loop stops at the first complete recording without release groups. *)
Lemma merge_loop_fail pre r post :
  contract pre -> complete r -> rec_releasegroups r = None -> forall B s,
  exists s', for_each merge_body (pre ++ r :: post) (split_buckets B) s
             = (Raise (KeyError "releasegroups"), s')
    /\ touched_by (touched (pre ++ [r])) (heap s) (heap s')
    /\ titles_identified_by_acoustid s' = titles_identified_by_acoustid s.
Proof.
  intros Hpre [[t Ht] [a Ha]] Hg B s.
  destruct (merge_loop_ok pre Hpre B s) as (s1 & E1 & T1 & R1).
  destruct (merge_body_complete (fold_left (add_recording (heap s)) pre B) r s1 t a Ht Ha)
    as (s2 & T2 & R2 & E2).
  rewrite Hg in E2. exists s2. split_and!.
  - rewrite for_each_app, (bind_Ok _ _ _ _ _ E1). simpl.
    by rewrite (bind_Raise _ _ _ _ _ E2).
  - rewrite touched_app, (touched_cons_complete r [] t a Ht Ha), app_nil_r.
    by apply touched_by_app with (heap s1).
  - congruence.
Qed.

(** ** The buckets after the loop *)

Section buckets_facts.
Variable h : loc -> Artist.

Lemma fold_add_recording_snoc recs r :
  fold_left (add_recording h) (recs ++ [r]) []
  = add_recording h (fold_left (add_recording h) recs []) r.
Proof. by rewrite fold_left_app. Qed.

Lemma bucket_of_complete r t a :
  rec_title r = Some t -> rec_artists r = Some a ->
  bucket_of h r = Some (t, artist_key h a).
Proof. unfold bucket_of. by intros -> ->. Qed.

Lemma bucket_of_incomplete r : ~ complete r -> bucket_of h r = None.
Proof.
  unfold complete, bucket_of. intros H.
  destruct (rec_title r), (rec_artists r); try done.
  exfalso. apply H. eauto.
Qed.

Lemma add_recording_complete B r t a :
  rec_title r = Some t -> rec_artists r = Some a ->
  add_recording h B r
  = dict_set t
      (dict_set (artist_key h a)
         match dict_get (artist_key h a) (default [] (dict_get t B)) with
         | Some (a0, acc) => (a0, acc ++ default [] (rec_releasegroups r))
         | None => (a, default [] (rec_releasegroups r))
         end (default [] (dict_get t B))) B.
Proof. unfold add_recording. by intros -> ->. Qed.

Lemma buckets_titles recs :
  (fold_left (add_recording h) recs []).*1 = seen_titles h recs.
Proof.
  induction recs as [|r recs IH] using rev_ind; [done|].
  rewrite fold_add_recording_snoc. unfold seen_titles in *.
  rewrite omap_app. destruct (decide (complete r)) as [[[t Ht] [a Ha]]|Hc].
  - simpl. rewrite (bucket_of_complete r t a Ht Ha). simpl.
    rewrite insertion_order_snoc, <- IH.
    rewrite (add_recording_complete _ r t a Ht Ha). apply dict_set_keys.
  - simpl. rewrite (bucket_of_incomplete r Hc). simpl.
    by rewrite app_nil_r, (add_recording_incomplete _ _ _ Hc).
Qed.

Lemma buckets_keys recs t :
  (default [] (dict_get t (fold_left (add_recording h) recs []))).*1
  = seen_keys h t recs.
Proof.
  induction recs as [|r recs IH] using rev_ind; [done|].
  rewrite fold_add_recording_snoc. unfold seen_keys in *.
  rewrite omap_app. destruct (decide (complete r)) as [[[t0 Ht] [a Ha]]|Hc].
  - simpl. rewrite (bucket_of_complete r t0 a Ht Ha).
    rewrite (add_recording_complete _ r t0 a Ht Ha), dict_get_set.
    destruct (decide (t0 = t)) as [->|Hne].
    + rewrite decide_True by done. simpl.
      rewrite insertion_order_snoc, <- IH. apply dict_set_keys.
    + rewrite decide_False by done. simpl. by rewrite app_nil_r.
  - simpl. rewrite (bucket_of_incomplete r Hc). simpl.
    by rewrite app_nil_r, (add_recording_incomplete _ _ _ Hc).
Qed.

Lemma members_snoc t k recs r :
  members h t k (recs ++ [r])
  = members h t k recs ++ (if decide (bucket_of h r = Some (t, k)) then [r] else []).
Proof.
  unfold members. by rewrite filter_app.
Qed.

Lemma buckets_lookup recs t k :
  dict_get k (default [] (dict_get t (fold_left (add_recording h) recs [])))
  = match members h t k recs with
    | [] => None
    | r0 :: _ =>
        Some (default [] (rec_artists r0),
              concat (map (fun r => default [] (rec_releasegroups r))
                        (members h t k recs)))
    end.
Proof.
  induction recs as [|r recs IH] using rev_ind; [done|].
  rewrite fold_add_recording_snoc, members_snoc.
  destruct (decide (complete r)) as [[[t0 Ht] [a Ha]]|Hc].
  - rewrite (bucket_of_complete r t0 a Ht Ha).
    rewrite (add_recording_complete _ r t0 a Ht Ha), dict_get_set.
    destruct (decide (t = t0)) as [->|Hne].
    + cbn [from_option id]. rewrite dict_get_set.
      destruct (decide (k = artist_key h a)) as [->|Hk].
      * rewrite decide_True by done. rewrite IH.
        destruct (members h t0 (artist_key h a) recs) as [|r0 rs]; simpl.
        -- by rewrite Ha, app_nil_r.
        -- by rewrite map_app, concat_app, !app_assoc; simpl; rewrite app_nil_r.
      * rewrite decide_False by congruence. by rewrite app_nil_r.
    + rewrite decide_False by congruence. by rewrite app_nil_r.
  - rewrite (bucket_of_incomplete r Hc), decide_False by done.
    by rewrite app_nil_r, (add_recording_incomplete _ _ _ Hc).
Qed.
End buckets_facts.

(** ** The returned list *)

Lemma rcomprehension_map_ok {A B C} (f : B -> result C) (g : A -> B) (k : A -> C) l :
  (forall x, x ∈ l -> f (g x) = Ok (k x)) ->
  rcomprehension f (map g l) = Ok (map k l).
Proof.
  induction l as [|x l IH]; intros H; simpl; [done|].
  rewrite H by left. simpl. rewrite IH; [done|].
  intros y Hy. apply H. by right.
Qed.

Lemma flat_map_keys {V C} (f : string * V -> list C) (g : string -> list C) (d : dict V) :
  (forall item, item ∈ d -> f item = g item.1) ->
  flat_map f d = flat_map g d.*1.
Proof.
  induction d as [|x d IH]; intros H; simpl; [done|].
  rewrite H by left. rewrite IH; [done|]. intros y Hy. apply H. by right.
Qed.

Lemma map_keys {V C} (f : string * V -> C) (g : string -> C) (d : dict V) :
  (forall item, item ∈ d -> f item = g item.1) ->
  map f d = map g d.*1.
Proof.
  induction d as [|x d IH]; intros H; simpl; [done|].
  rewrite H by left. rewrite IH; [done|]. intros y Hy. apply H. by right.
Qed.

Lemma omap_total {A B} (f : A -> option B) (d : B) (l : list A) :
  Forall (fun x => is_Some (f x)) l ->
  omap f l = map (fun x => default d (f x)) l.
Proof.
  induction 1 as [|x l [y Hy] Hl IH]; [done|]. cbn. rewrite Hy. cbn. by rewrite <- IH.
Qed.

Lemma dmap_item {V W} (f : V -> W) (d : dict V) item :
  item ∈ dmap f d <-> exists v, item = (item.1, f v) /\ (item.1, v) ∈ d.
Proof.
  unfold dmap. rewrite list_elem_of_fmap. split.
  - intros [[k v] [-> H]]. by exists v.
  - intros [v [-> H]]. by exists (item.1, v).
Qed.

Lemma rcomprehension_dmap_ok {V W C} (f : string * W -> result C) (g : V -> W)
    (k : string * V -> C) (d : dict V) :
  (forall item, item ∈ d -> f (item.1, g item.2) = Ok (k item)) ->
  rcomprehension f (dmap g d) = Ok (map k d).
Proof. intros H. unfold dmap. by apply rcomprehension_map_ok. Qed.

(** The list comprehension that ends [_merge_matching_recordings]. *)
Lemma merged_recordings_ok (B : buckets) :
  NoDup B.*1 ->
  (forall t inner, (t, inner) ∈ B -> NoDup inner.*1) ->
  rbind (rcomprehension
           (fun item => rcomprehension (merged_recording (split_buckets B).2 item.1) item.2)
           (split_buckets B).1)
        (fun per_title => Ok (concat per_title))
  = Ok (flat_map
          (fun item =>
             map (fun b => {| rec_title := Some item.1;
                              rec_artists := Some b.2.1;
                              rec_releasegroups :=
                                Some (_filter_out_compilations_from_releasegroups
                                        (list_helper.remove_duplicate_dicts b.2.2)) |})
               item.2) B).
Proof.
  intros HB Hinner. unfold split_buckets; cbn [fst snd].
  erewrite rcomprehension_dmap_ok; [simpl; by rewrite flat_map_concat_map|].
  intros [t inner] Hitem. cbn [fst snd].
  apply rcomprehension_dmap_ok.
  intros [k [a acc]] Hb. cbn [fst snd]. unfold merged_recording, dict_getitem.
  rewrite dict_get_dmap, (dict_lookup_item t inner B HB Hitem). simpl.
  rewrite dict_get_dmap, (dict_lookup_item k (a, acc) inner (Hinner _ _ Hitem) Hb).
  done.
Qed.

(** ** Specification of the merger *)

Lemma bucket_of_Some h r t k :
  bucket_of h r = Some (t, k) <->
  rec_title r = Some t /\ exists a, rec_artists r = Some a /\ artist_key h a = k.
Proof.
  unfold bucket_of. destruct (rec_title r) as [t'|], (rec_artists r) as [a'|]; split.
  - intros [= -> <-]. eauto.
  - intros [[= ->] (a & [= ->] & <-)]. done.
  - done.
  - intros [_ (a & ? & _)]. done.
  - done.
  - intros [? _]. done.
  - done.
  - intros [? _]. done.
Qed.

Lemma members_elem h t k recs r :
  r ∈ members h t k recs <-> bucket_of h r = Some (t, k) /\ r ∈ recs.
Proof. unfold members. by rewrite list_elem_of_filter. Qed.

Lemma members_releasegroups h t k recs :
  contract recs ->
  omap rec_releasegroups (members h t k recs)
  = map (fun r => default [] (rec_releasegroups r)) (members h t k recs).
Proof.
  intros Hc. apply omap_total. apply Forall_forall. intros r Hr.
  apply members_elem in Hr as [Hb Hr].
  unfold contract in Hc. rewrite Forall_forall in Hc. apply (Hc r Hr).
  apply bucket_of_Some in Hb as [Ht (a & Ha & _)]. split; eauto.
Qed.

Lemma buckets_flatten h recs :
  contract recs ->
  flat_map
    (fun item : string * dict (list loc * list ReleaseGroup) =>
       map (fun b => {| rec_title := Some item.1;
                        rec_artists := Some b.2.1;
                        rec_releasegroups :=
                          Some (_filter_out_compilations_from_releasegroups
                                  (list_helper.remove_duplicate_dicts b.2.2)) |})
         item.2)
    (fold_left (add_recording h) recs [])
  = merged h recs.
Proof.
  intros Hc. unfold merged. rewrite <- (buckets_titles h recs).
  apply flat_map_keys. intros [t inner] Hitem. cbn [fst snd].
  assert (dict_get t (fold_left (add_recording h) recs []) = Some inner) as Ht.
  { apply dict_lookup_item; [|done]. rewrite buckets_titles. apply insertion_order_NoDup. }
  pose proof (buckets_keys h recs t) as Hkeys. rewrite Ht in Hkeys. cbn in Hkeys.
  rewrite <- Hkeys. apply map_keys. intros [k [a acc]] Hb. cbn [fst snd].
  assert (dict_get k inner = Some (a, acc)) as Hk.
  { apply dict_lookup_item; [|done]. rewrite Hkeys. apply insertion_order_NoDup. }
  pose proof (buckets_lookup h recs t k) as Hl. rewrite Ht in Hl. cbn in Hl.
  rewrite Hk in Hl. unfold merged_of. cbn zeta.
  rewrite (members_releasegroups h t k recs Hc).
  destruct (members h t k recs) as [|r0 rs] eqn:Hm; [done|].
  injection Hl as -> ->. f_equal. simpl.
  assert (r0 ∈ members h t k recs) as Hr0 by (rewrite Hm; left).
  apply members_elem in Hr0 as [Hb0 _].
  apply bucket_of_Some in Hb0 as [_ (a0 & -> & _)]. done.
Qed.

(** What [_merge_matching_recordings] returns and does to the state when
    every complete recording has release groups. *)
Lemma merge_spec recs s :
  contract recs ->
  exists s', _merge_matching_recordings recs s = (Ok (merged (heap s) recs), s')
    /\ touched_by (touched recs) (heap s) (heap s')
    /\ titles_identified_by_acoustid s' = titles_identified_by_acoustid s.
Proof.
  intros Hc. destruct (merge_loop_ok recs Hc [] s) as (s' & E & T & R).
  exists s'. split_and!; [|done|done].
  unfold _merge_matching_recordings.
  change (@nil (string * dict (list ReleaseGroup)), @nil (string * dict (list loc)))
    with (split_buckets []).
  rewrite (bind_Ok _ _ _ _ _ E). unfold lift.
  rewrite merged_recordings_ok.
  - by rewrite (buckets_flatten _ _ Hc).
  - rewrite buckets_titles. apply insertion_order_NoDup.
  - intros t inner Hitem.
    assert (dict_get t (fold_left (add_recording (heap s)) recs []) = Some inner) as Ht.
    { apply dict_lookup_item; [|done]. rewrite buckets_titles. apply insertion_order_NoDup. }
    pose proof (buckets_keys (heap s) recs t) as Hkeys. rewrite Ht in Hkeys. cbn in Hkeys.
    rewrite Hkeys. apply insertion_order_NoDup.
Qed.

(** [_merge_matching_recordings] raises at the first complete recording
    without release groups. *)
Lemma merge_fail pre r post s :
  contract pre -> complete r -> rec_releasegroups r = None ->
  exists s', _merge_matching_recordings (pre ++ r :: post) s
             = (Raise (KeyError "releasegroups"), s')
    /\ touched_by (touched (pre ++ [r])) (heap s) (heap s')
    /\ titles_identified_by_acoustid s' = titles_identified_by_acoustid s.
Proof.
  intros Hpre Hr Hg.
  destruct (merge_loop_fail pre r post Hpre Hr Hg [] s) as (s' & E & T & R).
  exists s'. split_and!; [|done|done].
  unfold _merge_matching_recordings.
  change (@nil (string * dict (list ReleaseGroup)), @nil (string * dict (list loc)))
    with (split_buckets []).
  by rewrite (bind_Raise _ _ _ _ _ E).
Qed.

(** ** The result builder *)

Lemma names_ok artists :
  named artists ->
  rcomprehension (fun a => getitem "name" (artist_name a)) artists
  = Ok (omap artist_name artists).
Proof.
  induction 1 as [|a artists [n Hn] Hl IH]; [done|].
  cbn. rewrite Hn. cbn. by rewrite IH.
Qed.

Lemma join_artist_names_ok artists :
  named artists -> _join_artist_names artists = Ok (joined_names artists).
Proof. intros H. unfold _join_artist_names. by rewrite names_ok. Qed.

Lemma join_artist_names_raises artists e :
  _join_artist_names artists = Raise e -> e = KeyError "name".
Proof.
  unfold _join_artist_names.
  induction artists as [|a artists IH]; [done|]. cbn.
  destruct (artist_name a); cbn; [|by intros [= <-]].
  destruct (rcomprehension _ artists); cbn in *; [done|]. auto.
Qed.

Lemma get_result_for_releasegroup_ok rg n t :
  rg_named rg -> _get_result_for_releasegroup rg n t = Ok (track_of n t rg).
Proof.
  unfold rg_named, _get_result_for_releasegroup, track_of.
  destruct (rg_artists rg) as [artists|]; intros H.
  - rewrite (join_artist_names_ok _ H). cbn. by destruct (rg_title rg), (rg_name rg).
  - cbn. by destruct (rg_title rg), (rg_name rg).
Qed.

Lemma get_result_for_releasegroup_raises rg n t e :
  _get_result_for_releasegroup rg n t = Raise e -> e = KeyError "name".
Proof.
  unfold _get_result_for_releasegroup.
  destruct (rg_artists rg) as [artists|]; [|done].
  destruct (_join_artist_names artists) eqn:E; cbn; [done|].
  intros [= <-]. by apply join_artist_names_raises with artists.
Qed.

Lemma append_results_ok rgs n t acc s :
  Forall rg_named rgs ->
  for_each (fun results releasegroup =>
              r <- lift (_get_result_for_releasegroup releasegroup n t) ;;
              ret (results ++ [r])) rgs acc s
  = (Ok (acc ++ map (track_of n t) rgs), s).
Proof.
  intros H. revert acc. induction H as [|rg rgs Hrg Hrgs IH]; intros acc; simpl.
  - by rewrite app_nil_r.
  - unfold bind at 1, lift at 1. rewrite (get_result_for_releasegroup_ok _ _ _ Hrg).
    unfold bind at 1, ret at 1. rewrite IH. by rewrite <- app_assoc.
Qed.

Lemma register_spec key s :
  register key s
  = (Ok tt, {| heap := heap s;
               titles_identified_by_acoustid :=
                 if decide (key ∈ titles_identified_by_acoustid s)
                 then titles_identified_by_acoustid s
                 else titles_identified_by_acoustid s ++ [key] |}).
Proof. unfold register. destruct s as [h reg]; simpl. by case_decide. Qed.

Lemma results_body_ok acc r s :
  buildable (heap s) r ->
  results_body acc r s
  = (Ok (acc ++ tracks_of (heap s) r),
     {| heap := heap s;
        titles_identified_by_acoustid :=
          record_key (heap s) (titles_identified_by_acoustid s) r |}).
Proof.
  unfold buildable, results_body, tracks_of, record_key, registry_key.
  destruct (rec_artists r) as [a|], (rec_title r) as [t|];
    try (intros _; destruct s; simpl; by rewrite app_nil_r).
  intros [Hn (rgs & -> & Hrgs)].
  unfold bind at 1, deref at 1. unfold bind at 1, lift at 1.
  rewrite (join_artist_names_ok _ Hn).
  unfold bind at 1. rewrite register_spec.
  unfold bind at 1, lift at 1. cbn [getitem].
  by rewrite append_results_ok.
Qed.

Lemma builder_loop_ok recs acc s :
  Forall (buildable (heap s)) recs ->
  for_each results_body recs acc s
  = (Ok (acc ++ flat_map (tracks_of (heap s)) recs),
     {| heap := heap s;
        titles_identified_by_acoustid :=
          fold_left (record_key (heap s)) recs (titles_identified_by_acoustid s) |}).
Proof.
  intros H. revert acc s H. induction recs as [|r recs IH]; intros acc s H.
  - destruct s. simpl. by rewrite app_nil_r.
  - apply Forall_cons in H as [Hr Hrecs]. simpl.
    rewrite (bind_Ok _ _ _ _ _ (results_body_ok acc r s Hr)).
    rewrite IH by done. simpl. by rewrite <- app_assoc.
Qed.

(** [_get_results_for_recordings] on recordings whose artists are named. *)
Lemma builder_spec recs s :
  Forall (buildable (heap s)) recs ->
  _get_results_for_recordings recs s
  = (Ok (flat_map (tracks_of (heap s)) recs),
     {| heap := heap s;
        titles_identified_by_acoustid :=
          fold_left (record_key (heap s)) recs (titles_identified_by_acoustid s) |}).
Proof. intros H. unfold _get_results_for_recordings. by rewrite builder_loop_ok. Qed.

Lemma append_results_state rgs n t acc s :
  snd (for_each (fun results releasegroup =>
                   r <- lift (_get_result_for_releasegroup releasegroup n t) ;;
                   ret (results ++ [r])) rgs acc s) = s.
Proof.
  revert acc. induction rgs as [|rg rgs IH]; intros acc; simpl; [done|].
  unfold bind at 1, lift at 1.
  destruct (_get_result_for_releasegroup rg n t); [|done].
  unfold bind at 1, ret at 1. apply IH.
Qed.

Lemma append_results_raises rgs n t acc s e s' :
  for_each (fun results releasegroup =>
              r <- lift (_get_result_for_releasegroup releasegroup n t) ;;
              ret (results ++ [r])) rgs acc s = (Raise e, s') ->
  e = KeyError "name".
Proof.
  revert acc. induction rgs as [|rg rgs IH]; intros acc; simpl; [done|].
  unfold bind at 1, lift at 1.
  destruct (_get_result_for_releasegroup rg n t) eqn:E.
  - unfold bind at 1, ret at 1. apply IH.
  - intros [= <- _]. by apply get_result_for_releasegroup_raises in E.
Qed.

Lemma results_body_heap acc r s : heap (snd (results_body acc r s)) = heap s.
Proof.
  unfold results_body.
  destruct (rec_artists r) as [a|], (rec_title r) as [t|]; try done.
  unfold bind at 1, deref at 1. unfold bind at 1, lift at 1.
  destruct (_join_artist_names _); [|done].
  unfold bind at 1. rewrite register_spec.
  unfold bind at 1, lift at 1.
  destruct (rec_releasegroups r); cbn [getitem]; [|done].
  by rewrite append_results_state.
Qed.

Lemma results_body_raises acc r s e s' :
  (complete r -> is_Some (rec_releasegroups r)) ->
  results_body acc r s = (Raise e, s') -> e = KeyError "name".
Proof.
  unfold results_body, complete.
  destruct (rec_artists r) as [a|], (rec_title r) as [t|]; try done.
  intros H. destruct H as [g Hg]; [eauto|].
  unfold bind at 1, deref at 1. unfold bind at 1, lift at 1.
  destruct (_join_artist_names _) eqn:E;
    [|intros [= <- _]; by apply join_artist_names_raises in E].
  unfold bind at 1. rewrite register_spec.
  unfold bind at 1, lift at 1. rewrite Hg. cbn [getitem].
  apply append_results_raises.
Qed.

Lemma builder_loop_heap recs acc s :
  heap (snd (for_each results_body recs acc s)) = heap s.
Proof.
  revert acc s. induction recs as [|r recs IH]; intros acc s; simpl; [done|].
  unfold bind. pose proof (results_body_heap acc r s) as H.
  destruct (results_body acc r s) as [[acc'|e] s1]; simpl in *; [|done].
  by rewrite IH.
Qed.

Lemma builder_loop_raises recs acc s e s' :
  contract recs ->
  for_each results_body recs acc s = (Raise e, s') -> e = KeyError "name".
Proof.
  intros H. revert acc s. induction H as [|r recs Hr Hrecs IH]; intros acc s; simpl; [done|].
  unfold bind. destruct (results_body acc r s) as [[acc'|e1] s1] eqn:E.
  - apply IH.
  - intros [= <- _]. by apply results_body_raises in E.
Qed.

(** The merged recordings all carry title, artists and release groups. *)
Lemma merged_contract h recs : contract (merged h recs).
Proof.
  unfold contract, merged. apply Forall_forall. intros m Hm _.
  apply list_elem_of_In, in_flat_map in Hm as (t & _ & Hm).
  apply list_elem_of_In, list_elem_of_fmap in Hm as (k & -> & _).
  unfold merged_of. simpl. eauto.
Qed.

(** Splitting a list at its first complete recording without release groups. *)
Lemma first_without_releasegroups recs :
  ~ contract recs ->
  exists pre r post, recs = pre ++ r :: post /\ contract pre
    /\ complete r /\ rec_releasegroups r = None.
Proof.
  induction recs as [|r recs IH]; intros H.
  - exfalso. apply H. constructor.
  - destruct (decide (complete r -> is_Some (rec_releasegroups r))) as [Hr|Hr].
    + destruct IH as (pre & r0 & post & -> & Hpre & Hc & Hg).
      { intros Hrecs. apply H. by constructor. }
      exists (r :: pre), r0, post. split_and!; try done. by constructor.
    + exists [], r, recs. split_and!; [done | constructor | |].
      * destruct (decide (complete r)); [done|]. exfalso. apply Hr. done.
      * destruct (rec_releasegroups r) eqn:E; [|done]. exfalso. apply Hr. eauto.
Qed.

(** ** Structure of the merged list *)

Lemma elem_of_flat_map {A B} (f : A -> list B) (l : list A) (y : B) :
  y ∈ flat_map f l <-> exists x, x ∈ l /\ y ∈ f x.
Proof.
  rewrite list_elem_of_In, in_flat_map. split.
  - intros (x & Hx & Hy). exists x. by rewrite !list_elem_of_In.
  - intros (x & Hx & Hy). exists x. by rewrite <- !list_elem_of_In.
Qed.

Lemma flat_map_ext_elem {A B} (f g : A -> list B) (l : list A) :
  (forall x, x ∈ l -> f x = g x) -> flat_map f l = flat_map g l.
Proof.
  induction l as [|x l IH]; intros H; simpl; [done|].
  rewrite H by left. rewrite IH; [done|]. intros y Hy. apply H. by right.
Qed.

Lemma map_ext_elem {A B} (f g : A -> B) (l : list A) :
  (forall x, x ∈ l -> f x = g x) -> map f l = map g l.
Proof.
  intros H. apply map_ext_in. intros x Hx. apply H. by apply list_elem_of_In.
Qed.

Lemma map_flat_map {A B C} (f : B -> C) (g : A -> list B) (l : list A) :
  map f (flat_map g l) = flat_map (fun x => map f (g x)) l.
Proof. induction l as [|x l IH]; simpl; [done|]. by rewrite map_app, IH. Qed.

Lemma NoDup_pairs {A B} (ts : list A) (ks : A -> list B) :
  NoDup ts -> (forall t, NoDup (ks t)) ->
  NoDup (flat_map (fun t => map (pair t) (ks t)) ts).
Proof.
  intros Hts Hks. induction Hts as [|t ts Ht Hts IH]; simpl; [constructor|].
  apply NoDup_app. split_and!.
  - apply NoDup_fmap_2; [|done]. by intros k1 k2 [= ->].
  - intros [t' k] H1 H2. apply list_elem_of_fmap in H1 as (k' & [= -> ->] & _).
    apply elem_of_flat_map in H2 as (t2 & Ht2 & H2).
    apply list_elem_of_fmap in H2 as (k2 & [= <- _] & _). done.
  - done.
Qed.

Lemma filter_none {A} (P : A -> Prop) `{forall x, Decision (P x)} (l : list A) :
  (forall y, y ∈ l -> ~ P y) -> filter P l = [].
Proof.
  induction l as [|y l IH]; intros Hl; [done|].
  rewrite filter_cons, decide_False by (apply Hl; left).
  apply IH. intros z Hz. apply Hl. by right.
Qed.

Lemma filter_unique {A B} `{EqDecision B} (f : A -> B) (l : list A) (x : A) :
  NoDup (map f l) -> x ∈ l -> filter (fun y => f y = f x) l = [x].
Proof.
  induction l as [|y l IH]; intros Hnd Hx; [by apply elem_of_nil in Hx|].
  simpl in Hnd. apply NoDup_cons in Hnd as [Hy Hnd].
  rewrite filter_cons. apply elem_of_cons in Hx as [<-|Hx].
  - rewrite decide_True by done. f_equal.
    apply filter_none. intros z Hz Hf. apply Hy. rewrite <- Hf.
    apply list_elem_of_fmap. by exists z.
  - rewrite decide_False; [by apply IH|].
    intros Hf. apply Hy. rewrite Hf. apply list_elem_of_fmap. by exists x.
Qed.

Section merged_facts.
Variable h : loc -> Artist.

Lemma seen_titles_elem recs t :
  t ∈ seen_titles h recs <-> exists r k, r ∈ recs /\ bucket_of h r = Some (t, k).
Proof.
  unfold seen_titles. rewrite insertion_order_elem, list_elem_of_omap. split.
  - intros (r & Hr & Hb). destruct (bucket_of h r) as [[t' k]|] eqn:E; [|done].
    injection Hb as ->. eauto.
  - intros (r & k & Hr & Hb). exists r. by rewrite Hb.
Qed.

Lemma seen_keys_elem recs t k :
  k ∈ seen_keys h t recs <-> exists r, r ∈ recs /\ bucket_of h r = Some (t, k).
Proof.
  unfold seen_keys. rewrite insertion_order_elem, list_elem_of_omap. split.
  - intros (r & Hr & Hb). destruct (bucket_of h r) as [[t' k']|] eqn:E; [|done].
    case_decide; [|done]. injection Hb as ->. subst. eauto.
  - intros (r & Hr & Hb). exists r. rewrite Hb. by rewrite decide_True.
Qed.

Lemma merged_elem recs m :
  m ∈ merged h recs <->
  exists t k, t ∈ seen_titles h recs /\ k ∈ seen_keys h t recs
              /\ m = merged_of h recs t k.
Proof.
  unfold merged. rewrite elem_of_flat_map. split.
  - intros (t & Ht & Hm). apply list_elem_of_fmap in Hm as (k & -> & Hk). eauto.
  - intros (t & k & Ht & Hk & ->). exists t. split; [done|].
    apply list_elem_of_fmap. eauto.
Qed.

Lemma members_first recs t k :
  k ∈ seen_keys h t recs ->
  exists r0 later, members h t k recs = r0 :: later.
Proof.
  intros (r & Hr & Hb)%seen_keys_elem.
  destruct (members h t k recs) as [|r0 later] eqn:E; [|eauto].
  exfalso. assert (r ∈ members h t k recs) as H by (by apply members_elem).
  rewrite E in H. by apply elem_of_nil in H.
Qed.

Lemma bucket_of_merged h' recs t k :
  (forall l, id_or_empty h' l = id_or_empty h l) ->
  k ∈ seen_keys h t recs ->
  bucket_of h' (merged_of h recs t k) = Some (t, k).
Proof.
  intros Hh Hk. destruct (members_first recs t k Hk) as (r0 & later & E).
  assert (r0 ∈ members h t k recs) as H0 by (rewrite E; left).
  apply members_elem in H0 as [(_ & a & Ha & Hkey)%bucket_of_Some _].
  unfold bucket_of, merged_of. cbn. rewrite E. cbn. rewrite Ha.
  by rewrite (artist_key_ext h h'), Hkey.
Qed.

Lemma merged_buckets h' recs :
  (forall l, id_or_empty h' l = id_or_empty h l) ->
  map (bucket_of h') (merged h recs)
  = map Some (flat_map (fun t => map (pair t) (seen_keys h t recs))
                (seen_titles h recs)).
Proof.
  intros Hh. unfold merged. rewrite !map_flat_map.
  apply flat_map_ext_elem. intros t _. rewrite !map_map.
  apply map_ext_elem. intros k Hk. by apply bucket_of_merged.
Qed.

Lemma merged_buckets_NoDup h' recs :
  (forall l, id_or_empty h' l = id_or_empty h l) ->
  NoDup (map (bucket_of h') (merged h recs)).
Proof.
  intros Hh. rewrite (merged_buckets h' recs Hh).
  apply NoDup_fmap_2; [by intros x y [= ->]|].
  apply NoDup_pairs; [|intros t]; apply insertion_order_NoDup.
Qed.
End merged_facts.

(** ** Skipped recordings and the pipeline *)

Lemma for_each_skip {A B} (body : A -> B -> M A) l1 x l2 acc s :
  (forall acc s, body acc x s = (Ok acc, s)) ->
  for_each body (l1 ++ x :: l2) acc s = for_each body (l1 ++ l2) acc s.
Proof.
  intros Hx. revert acc s. induction l1 as [|y l1 IH]; intros acc s; simpl.
  - by rewrite (bind_Ok _ _ _ _ _ (Hx acc s)).
  - unfold bind. destruct (body acc y s) as [[acc'|e] s1]; [apply IH | done].
Qed.

Lemma results_body_incomplete acc r s : ~ complete r -> results_body acc r s = (Ok acc, s).
Proof.
  unfold complete, results_body. intros H.
  destruct (rec_artists r), (rec_title r); try done.
  exfalso. apply H. eauto.
Qed.

Lemma merge_skip r l1 l2 s :
  ~ complete r ->
  _merge_matching_recordings (l1 ++ r :: l2) s = _merge_matching_recordings (l1 ++ l2) s.
Proof.
  intros H. unfold _merge_matching_recordings, bind.
  rewrite for_each_skip; [done|]. intros acc s0. by apply merge_body_incomplete.
Qed.

Lemma builder_skip r l1 l2 s :
  ~ complete r ->
  _get_results_for_recordings (l1 ++ r :: l2) s = _get_results_for_recordings (l1 ++ l2) s.
Proof.
  intros H. unfold _get_results_for_recordings.
  rewrite for_each_skip; [done|]. intros acc s0. by apply results_body_incomplete.
Qed.

Lemma parse_ok data res s :
  status data = Some "ok" -> results data = Some res ->
  _parse_lookup_result data s
  = bind (_extract_recordings res) _get_results_for_recordings s.
Proof. unfold _parse_lookup_result. intros -> ->. reflexivity. Qed.

Lemma results_body_registers acc m s t a :
  rec_title m = Some t -> rec_artists m = Some a -> named (map (heap s) a) ->
  titles_identified_by_acoustid (snd (results_body acc m s))
  = record_key (heap s) (titles_identified_by_acoustid s) m.
Proof.
  intros Ht Ha Hn. unfold results_body, record_key, registry_key. rewrite Ha, Ht.
  unfold bind at 1, deref at 1. unfold bind at 1, lift at 1.
  rewrite (join_artist_names_ok _ Hn).
  unfold bind at 1. rewrite register_spec.
  unfold bind at 1, lift at 1.
  destruct (rec_releasegroups m); cbn [getitem]; [|done].
  by rewrite append_results_state.
Qed.


Lemma extract_spec res s :
  contract (list_helper.flatten (omap recordings res)) ->
  exists s', _extract_recordings res s
             = (Ok (merged (heap s) (list_helper.flatten (omap recordings res))), s')
    /\ touched_by (touched (list_helper.flatten (omap recordings res))) (heap s) (heap s')
    /\ titles_identified_by_acoustid s' = titles_identified_by_acoustid s.
Proof. intros H. unfold _extract_recordings. by apply merge_spec. Qed.

Lemma touched_by_cases A h h' l :
  touched_by A h h' ->
  h' l = if decide (l ∈ A /\ artist_id (h l) = None)
         then {| artist_id := Some ""; artist_name := artist_name (h l) |}
         else h l.
Proof.
  intros H. rewrite (H l). unfold with_default_id.
  destruct (decide (l ∈ A)) as [Hin|Hin], (h l) as [[i|] n]; simpl.
  - by rewrite decide_False by (by intros [_ ?]).
  - by rewrite decide_True.
  - by rewrite decide_False by (by intros [? _]).
  - by rewrite decide_False by (by intros [? _]).
Qed.


Lemma filter_unique_at {A B} `{EqDecision B} (f : A -> B) (l : list A) (x : A) (b : B) :
  NoDup (map f l) -> x ∈ l -> f x = b -> filter (fun y => f y = b) l = [x].
Proof. intros Hnd Hx <-. by apply filter_unique. Qed.


(** ** The merger on every input *)

Lemma reached_contract recs : contract recs -> reached recs = recs.
Proof.
  induction 1 as [|r recs Hr Hrecs IH]; [done|]. simpl.
  rewrite decide_False; [by rewrite IH|].
  intros [Hc Hg]. destruct (Hr Hc) as [g Hg']. congruence.
Qed.

Lemma reached_first_without pre r post :
  contract pre -> complete r -> rec_releasegroups r = None ->
  reached (pre ++ r :: post) = pre ++ [r].
Proof.
  intros Hpre Hc Hg. induction Hpre as [|r0 pre Hr0 Hpre IH]; simpl.
  - by rewrite decide_True.
  - rewrite decide_False; [by rewrite IH|].
    intros [Hc0 Hg0]. destruct (Hr0 Hc0) as [g Hg']. congruence.
Qed.

(** The artist dicts after the merger, on every input. *)
Lemma merge_heap recs s :
  touched_by (touched (reached recs)) (heap s)
    (heap (snd (_merge_matching_recordings recs s))).
Proof.
  destruct (decide (contract recs)) as [Hc|Hc].
  - rewrite (reached_contract recs Hc).
    by destruct (merge_spec recs s Hc) as (s' & -> & T & _).
  - destruct (first_without_releasegroups recs Hc) as (pre & r & post & -> & Hp & Hr & Hg).
    rewrite (reached_first_without pre r post Hp Hr Hg).
    by destruct (merge_fail pre r post s Hp Hr Hg) as (s' & -> & T & _).
Qed.

Lemma parse_heap data res s :
  status data = Some "ok" -> results data = Some res ->
  heap (snd (_parse_lookup_result data s))
  = heap (snd (_merge_matching_recordings (list_helper.flatten (omap recordings res)) s)).
Proof.
  intros Hst Hres. rewrite (parse_ok data res s Hst Hres).
  unfold bind, _extract_recordings.
  destruct (_merge_matching_recordings _ s) as [[recs|e] s1]; [|done].
  apply builder_loop_heap.
Qed.

(** ** The claims of the specification *)

(** C2. Release Group Filter: when some release group has no
    [secondarytypes], the result is exactly the release groups without
    [secondarytypes], in order; when every release group has it, the list is
    returned unchanged; hence a non-empty list is never mapped to the empty
    list. *)
Theorem filter_out_compilations_cases (releasegroups : list ReleaseGroup) :
  ((exists g, g ∈ releasegroups /\ rg_secondarytypes g = None) ->
     _filter_out_compilations_from_releasegroups releasegroups
     = filter (fun g => rg_secondarytypes g = None) releasegroups)
  /\ ((forall g, g ∈ releasegroups -> rg_secondarytypes g <> None) ->
        _filter_out_compilations_from_releasegroups releasegroups = releasegroups)
  /\ (releasegroups <> [] ->
        _filter_out_compilations_from_releasegroups releasegroups <> []).
Proof.
  unfold _filter_out_compilations_from_releasegroups.
  set (kept := filter (fun g => rg_secondarytypes g = None) releasegroups).
  destruct kept as [|g0 kept'] eqn:E; cbn [length Nat.eqb negb].
  - split_and!.
    + intros (g & Hg & Hs). exfalso.
      assert (g ∈ kept) as H by (by apply list_elem_of_filter).
      rewrite E in H. by apply elem_of_nil in H.
    + done.
    + done.
  - split_and!.
    + done.
    + intros H. exfalso.
      assert (g0 ∈ kept) as H0 by (rewrite E; left).
      apply list_elem_of_filter in H0 as [H0 Hin]. by apply (H g0).
    + done.
Qed.

Lemma filter_out_compilations_cases_witness :
  _filter_out_compilations_from_releasegroups [compilation; album_g2] = [album_g2]
  /\ _filter_out_compilations_from_releasegroups [compilation] = [compilation]
  /\ _filter_out_compilations_from_releasegroups [compilation] <> [].
Proof.
  split_and!.
  - apply (proj1 (filter_out_compilations_cases [compilation; album_g2])).
    exists album_g2. split; [right; left | reflexivity].
  - apply (proj1 (proj2 (filter_out_compilations_cases [compilation]))).
    intros g Hg. apply list_elem_of_singleton in Hg. subst g. discriminate.
  - apply (proj2 (proj2 (filter_out_compilations_cases [compilation]))).
    discriminate.
Defined.

(** C3. Result Builder: for merged recordings (title, artists and release
    groups present, every artist dict named) the output is the concatenation,
    in order, of one block per recording; a block has exactly one record per
    release group of the recording, in the release groups' order, with
    title = the recording's title, artist = the recording's artist names
    joined with "; " in input order without deduplication, album = the
    release group's title if present, else its name if present, else null,
    and albumartist = the "; "-joined names of the release group's own
    artists if present, else null. *)
Theorem result_builder_one_track_per_release_group
    (recs : list Recording) (s : state) :
  Forall complete recs ->
  Forall (buildable (heap s)) recs ->
  exists outs : list (list TrackMetadata),
    fst (_get_results_for_recordings recs s) = Ok (concat outs)
    /\ Forall2
         (fun m out =>
            exists t a rgs,
              rec_title m = Some t /\ rec_artists m = Some a
              /\ rec_releasegroups m = Some rgs
              /\ length out = length rgs
              /\ Forall2
                   (fun g tm =>
                      title tm = t
                      /\ artist tm
                         = String.concat "; " (omap artist_name (map (heap s) a))
                      /\ album tm = match rg_title g with
                                    | Some x => Some x
                                    | None => rg_name g
                                    end
                      /\ albumartist tm
                         = (fun l => String.concat "; " (omap artist_name l))
                             <$> rg_artists g)
                   rgs out)
         recs outs.
Proof.
  intros Hc Hb. exists (map (tracks_of (heap s)) recs). split.
  - rewrite (builder_spec recs s Hb). simpl. by rewrite flat_map_concat_map.
  - induction recs as [|m recs IH]; [constructor|].
    apply Forall_cons in Hc as [[[t Ht] [a Ha]] Hc].
    apply Forall_cons in Hb as [Hm Hb].
    simpl. constructor; [|by apply IH].
    unfold buildable in Hm. rewrite Ha, Ht in Hm. destruct Hm as [_ (rgs & Hg & _)].
    exists t, a, rgs. unfold tracks_of. rewrite Ha, Ht, Hg.
    split_and!; try done.
    + by rewrite length_map.
    + clear. induction rgs as [|g rgs IH]; simpl; constructor; [|done].
      split_and!; reflexivity.
Qed.

Lemma result_builder_one_track_per_release_group_witness :
  exists outs : list (list TrackMetadata),
    fst (_get_results_for_recordings
           [mkRecording (Some "Foo") (Some [0]) (Some [compilation; album_g2])]
           (mkState (heap_of [mkArtist (Some "x") (Some "X")]) []))
    = Ok (concat outs)
    /\ length outs = 1.
Proof.
  destruct (result_builder_one_track_per_release_group
              [mkRecording (Some "Foo") (Some [0]) (Some [compilation; album_g2])]
              (mkState (heap_of [mkArtist (Some "x") (Some "X")]) []))
    as (outs & E & F).
  - repeat constructor; eexists; reflexivity.
  - repeat constructor; try (eexists; reflexivity).
    eexists. split; [reflexivity|]. repeat constructor.
  - exists outs. split; [exact E|]. apply Forall2_length in F. symmetry. exact F.
Defined.

(** C4 (the code on a response without status). The validator reads
    [data["status"]] before it looks for the results: a response that has
    no status, with or without results, makes the lookup raise
    [KeyError "status"] instead of the web-service error; the state is the
    initial one. *)
Theorem parse_lookup_result_without_status
    (res : option (list ResultEntry)) (s : state) :
  _parse_lookup_result (mkLookupResponse None res) s = (Raise (KeyError "status"), s).
Proof. destruct res; reflexivity. Qed.

(** C5. A recording lacking a title or lacking artists contributes nothing:
    the lookup on a response that contains it, inside any result entry,
    yields exactly the outcome and the final state of the lookup on the
    response without it; the merger and the result builder each skip it in
    the same way. *)
Theorem incomplete_recording_is_skipped
    (data : LookupResponse) (before after : list ResultEntry)
    (l1 l2 : list Recording) (r : Recording) (s : state) :
  rec_title r = None \/ rec_artists r = None ->
  results data = Some (before ++ mkResultEntry (Some (l1 ++ r :: l2)) :: after) ->
  _parse_lookup_result data s
  = _parse_lookup_result
      (mkLookupResponse (status data)
         (Some (before ++ mkResultEntry (Some (l1 ++ l2)) :: after))) s
  /\ _merge_matching_recordings (l1 ++ r :: l2) s
     = _merge_matching_recordings (l1 ++ l2) s
  /\ _get_results_for_recordings (l1 ++ r :: l2) s
     = _get_results_for_recordings (l1 ++ l2) s.
Proof.
  intros Hr Hres.
  assert (~ complete r) as Hc.
  { intros [[t Ht] [a Ha]]. destruct Hr; congruence. }
  split_and!; [|by apply merge_skip | by apply builder_skip].
  unfold _parse_lookup_result. rewrite Hres. cbn [status results].
  unfold bind at 1 3. destruct (lift (getitem "status" (status data)) s) as [[st|e] s0]; [|done].
  destruct (negb (String.eqb st "ok")); [done|].
  unfold bind, _extract_recordings, list_helper.flatten.
  rewrite !omap_app. cbn [omap list_omap recordings]. rewrite !concat_app.
  cbn [concat]. rewrite <- !(app_assoc l1), <- !app_comm_cons.
  rewrite !(app_assoc (concat (omap recordings before))).
  by rewrite merge_skip.
Qed.

Lemma incomplete_recording_is_skipped_witness :
  _parse_lookup_result
    (mkLookupResponse (Some "ok")
       (Some ([] ++ mkResultEntry
                      (Some ([] ++ mkRecording None (Some [0]) (Some [album_g2]) :: []))
                 :: []))) example_a_state
  = _parse_lookup_result
      (mkLookupResponse (Some "ok") (Some ([] ++ mkResultEntry (Some ([] ++ [])) :: [])))
      example_a_state.
Proof.
  apply (incomplete_recording_is_skipped
           (mkLookupResponse (Some "ok")
              (Some ([] ++ mkResultEntry
                             (Some ([] ++ mkRecording None (Some [0]) (Some [album_g2]) :: []))
                        :: [])))
           [] [] [] [] (mkRecording None (Some [0]) (Some [album_g2])) example_a_state).
  - left. reflexivity.
  - reflexivity.
Defined.

(** C8. Submission registry: for every merged recording the result builder
    processes, the key title + "_" + joined artist names is appended to the
    registry exactly when it is not yet in it; this happens once per
    recording and does not depend on its release groups (none, some, or
    ill-formed ones). *)
Theorem result_builder_registers_each_key_once (recs : list Recording) (s : state) :
  Forall (buildable (heap s)) recs ->
  titles_identified_by_acoustid (snd (_get_results_for_recordings recs s))
  = fold_left (record_key (heap s)) recs (titles_identified_by_acoustid s)
  /\ heap (snd (_get_results_for_recordings recs s)) = heap s
  /\ forall m t a,
       rec_title m = Some t -> rec_artists m = Some a -> named (map (heap s) a) ->
       titles_identified_by_acoustid (snd (_get_results_for_recordings [m] s))
       = let key := t +:+ "_" +:+ String.concat "; " (omap artist_name (map (heap s) a)) in
         if decide (key ∈ titles_identified_by_acoustid s)
         then titles_identified_by_acoustid s
         else titles_identified_by_acoustid s ++ [key].
Proof.
  intros Hb. split_and!.
  - by rewrite (builder_spec recs s Hb).
  - by rewrite (builder_spec recs s Hb).
  - intros m t a Ht Ha Hn. unfold _get_results_for_recordings. simpl.
    unfold bind. pose proof (results_body_registers [] m s t a Ht Ha Hn) as H.
    destruct (results_body [] m s) as [[acc|e] s1]; simpl in *; rewrite H;
      unfold record_key, registry_key; by rewrite Ha, Ht.
Qed.

Lemma result_builder_registers_each_key_once_witness :
  titles_identified_by_acoustid
    (snd (_get_results_for_recordings
            [mkRecording (Some "Foo") (Some [0]) (Some []);
             mkRecording (Some "Foo") (Some [0]) (Some [album_g2])]
            (mkState (heap_of [mkArtist (Some "x") (Some "X")]) [])))
  = ["Foo_X"].
Proof.
  refine (eq_trans
            (proj1 (result_builder_registers_each_key_once
                      [mkRecording (Some "Foo") (Some [0]) (Some []);
                       mkRecording (Some "Foo") (Some [0]) (Some [album_g2])]
                      (mkState (heap_of [mkArtist (Some "x") (Some "X")]) []) _)) _).
  - repeat constructor; try (eexists; reflexivity).
    + eexists. split; [reflexivity|]. constructor.
    + eexists. split; [reflexivity|]. repeat constructor.
  - vm_compute. reflexivity.
Defined.

(** C9. The merger reads ["releasegroups"] of every recording that has
    title and artists: if some such recording lacks release groups, the
    merger, and with it the whole lookup, raises [KeyError "releasegroups"];
    if every recording with title and artists has release groups, the merger
    returns and the lookup never raises that error. *)
Theorem releasegroups_are_read_unconditionally
    (data : LookupResponse) (res : list ResultEntry) (s : state) :
  status data = Some "ok" ->
  results data = Some res ->
  ((exists r, r ∈ list_helper.flatten (omap recordings res)
              /\ is_Some (rec_title r) /\ is_Some (rec_artists r)
              /\ rec_releasegroups r = None) ->
     fst (_merge_matching_recordings (list_helper.flatten (omap recordings res)) s)
     = Raise (KeyError "releasegroups")
     /\ fst (_parse_lookup_result data s) = Raise (KeyError "releasegroups"))
  /\ (contract (list_helper.flatten (omap recordings res)) ->
        (exists out,
           fst (_merge_matching_recordings (list_helper.flatten (omap recordings res)) s)
           = Ok out)
        /\ fst (_parse_lookup_result data s) <> Raise (KeyError "releasegroups")).
Proof.
  intros Hst Hres. rewrite (parse_ok data res s Hst Hres).
  unfold _extract_recordings.
  set (recs := list_helper.flatten (omap recordings res)). split.
  - intros (r & Hr & Ht & Ha & Hg).
    destruct (first_without_releasegroups recs) as (pre & r0 & post & E & Hpre & Hc & Hg0).
    { unfold contract. rewrite Forall_forall. intros H.
      destruct (H r Hr) as [g Hg']; [by split | congruence]. }
    destruct (merge_fail pre r0 post s Hpre Hc Hg0) as (s' & E' & _).
    rewrite E. by rewrite (bind_Raise _ _ _ _ _ E'), E'.
  - intros Hc. destruct (merge_spec recs s Hc) as (s' & E & _).
    rewrite (bind_Ok _ _ _ _ _ E), E. split; [eauto|].
    unfold _get_results_for_recordings.
    destruct (for_each results_body (merged (heap s) recs) [] s') as [[out|e] s2] eqn:Eb;
      [done|].
    apply builder_loop_raises in Eb; [|apply merged_contract]. by subst e.
Qed.

Lemma releasegroups_are_read_unconditionally_witness :
  fst (_parse_lookup_result
         (mkLookupResponse (Some "ok") (Some [mkResultEntry (Some [no_releasegroups])]))
         example_a_state)
  = Raise (KeyError "releasegroups")
  /\ fst (_parse_lookup_result example_a example_a_state) <> Raise (KeyError "releasegroups").
Proof.
  split.
  - apply (proj1 (releasegroups_are_read_unconditionally
                    (mkLookupResponse (Some "ok")
                       (Some [mkResultEntry (Some [no_releasegroups])]))
                    [mkResultEntry (Some [no_releasegroups])]
                    example_a_state eq_refl eq_refl)).
    exists no_releasegroups. split_and!; [left | by eexists | by eexists | reflexivity].
  - refine (proj2 (proj2 (releasegroups_are_read_unconditionally
                            example_a _ example_a_state eq_refl eq_refl) _)).
    repeat constructor; eexists; reflexivity.
Defined.

(** C10 (as the code has it). The merge step writes to its input, on
    every input: after the merger an artist dict is changed exactly when it
    belongs to the artists of a recording with title and artists that the
    loop got to, and it had no id; it then has id = "" and its name is
    untouched.  The loop gets to every recording under the input contract,
    and otherwise stops at the first recording with title and artists but no
    release groups.  The rest of the lookup changes no artist dict. *)
Theorem merge_sets_missing_artist_ids (recs : list Recording) (s : state) :
  (forall l,
     heap (snd (_merge_matching_recordings recs s)) l
     = if decide (l ∈ touched (reached recs) /\ artist_id (heap s l) = None)
       then {| artist_id := Some ""; artist_name := artist_name (heap s l) |}
       else heap s l)
  /\ (contract recs -> reached recs = recs)
  /\ (forall data res,
        status data = Some "ok" -> results data = Some res ->
        list_helper.flatten (omap recordings res) = recs ->
        forall l,
          heap (snd (_parse_lookup_result data s)) l
          = heap (snd (_merge_matching_recordings recs s)) l).
Proof.
  split_and!.
  - intros l. apply touched_by_cases, merge_heap.
  - apply reached_contract.
  - intros data res Hst Hres <- l. by rewrite (parse_heap data res s Hst Hres).
Qed.

Lemma merge_sets_missing_artist_ids_witness :
  heap (snd (_merge_matching_recordings same_bucket
               (mkState (heap_of [mkArtist None (Some "X"); mkArtist (Some "") (Some "X")])
                  []))) 0
  = mkArtist (Some "") (Some "X")
  /\ reached same_bucket = same_bucket
  /\ heap (snd (_merge_matching_recordings aborted aborted_state)) 0
     = mkArtist (Some "") (Some "X").
Proof.
  split_and!.
  - exact (eq_trans
             (proj1 (merge_sets_missing_artist_ids same_bucket
                       (mkState
                          (heap_of [mkArtist None (Some "X"); mkArtist (Some "") (Some "X")])
                          [])) 0)
             eq_refl).
  - apply (proj1 (proj2 (merge_sets_missing_artist_ids same_bucket same_track_state))).
    repeat constructor; eexists; reflexivity.
  - exact (eq_trans (proj1 (merge_sets_missing_artist_ids aborted aborted_state) 0) eq_refl).
Defined.

(** C10 as stated fails: the second recording of [aborted] has title and
    artists and its artist dict has no id, but the merger raises at the first
    recording and never inserts one. *)
Lemma later_recording_keeps_missing_id :
  exists r,
    r ∈ aborted
    /\ is_Some (rec_title r) /\ rec_artists r = Some [1]
    /\ artist_id (heap aborted_state 1) = None
    /\ fst (_merge_matching_recordings aborted aborted_state)
       = Raise (KeyError "releasegroups")
    /\ artist_id (heap (snd (_merge_matching_recordings aborted aborted_state)) 1) = None.
Proof.
  exists (mkRecording (Some "Bar") (Some [1]) (Some [album_g2])).
  split_and!; [right; left | by eexists | reflexivity | reflexivity
              | vm_compute; reflexivity | vm_compute; reflexivity].
Qed.

(** C6. For every merged recording the merger returns, its artists list is
    the artists list of the first recording filed under its (title, artist
    key) bucket; the recordings filed there later do not contribute to it.
    Every bucket of the input has such a merged recording. *)
Theorem merged_artists_are_first_seen (recs : list Recording) (s : state) :
  contract recs ->
  exists out s',
    _merge_matching_recordings recs s = (Ok out, s')
    /\ (forall m, m ∈ out ->
          exists t k first later,
            bucket_of (heap s') m = Some (t, k)
            /\ members (heap s) t k recs = first :: later
            /\ rec_artists m = rec_artists first)
    /\ (forall r t k, r ∈ recs -> bucket_of (heap s) r = Some (t, k) ->
          exists m first later,
            m ∈ out /\ rec_title m = Some t
            /\ members (heap s) t k recs = first :: later
            /\ rec_artists m = rec_artists first).
Proof.
  intros Hc. destruct (merge_spec recs s Hc) as (s' & E & T & _).
  exists (merged (heap s) recs), s'. split_and!; [done | |].
  - intros m (t & k & Ht & Hk & ->)%merged_elem.
    destruct (members_first (heap s) recs t k Hk) as (first & later & Em).
    exists t, k, first, later. split_and!; [|done|].
    + apply bucket_of_merged; [|done]. intros l. by apply touched_by_ids with (touched recs).
    + unfold merged_of. cbn. by rewrite Em.
  - intros r t k Hr Hb.
    assert (k ∈ seen_keys (heap s) t recs) as Hk by (apply seen_keys_elem; eauto).
    destruct (members_first (heap s) recs t k Hk) as (first & later & Em).
    exists (merged_of (heap s) recs t k), first, later. split_and!; [|done|done|].
    + apply merged_elem. exists t, k. split_and!; [|done|done].
      apply seen_titles_elem. eauto.
    + unfold merged_of. cbn. by rewrite Em.
Qed.

Lemma merged_artists_are_first_seen_witness :
  exists out s' m,
    _merge_matching_recordings same_bucket same_track_state = (Ok out, s')
    /\ m ∈ out
    /\ rec_artists m = Some [0].
Proof.
  destruct (merged_artists_are_first_seen same_bucket same_track_state)
    as (out & s' & E & _ & H).
  - repeat constructor; eexists; reflexivity.
  - destruct (H (mkRecording (Some "Foo") (Some [1]) (Some [album_g2])) "Foo" "x")
      as (m & first & later & Hm & _ & Hmem & Ha).
    + right. left.
    + reflexivity.
    + exists out, s', m. split; [exact E|]. split; [exact Hm|].
      vm_compute in Hmem. injection Hmem as <- <-. exact Ha.
Defined.

(** C7. The merger's output is ordered title-major, then artist-key-minor:
    titles in the order of their first insertion and, under one title, artist
    keys in the order of their first insertion.  This is not the input order
    in general: the interleaved titles A, B, A come out as A, A, B. *)
Theorem merged_order_is_title_major (recs : list Recording) (s : state) :
  contract recs ->
  (exists out s',
     _merge_matching_recordings recs s = (Ok out, s')
     /\ map (bucket_of (heap s')) out
        = map Some (flat_map (fun t => map (pair t) (seen_keys (heap s) t recs))
                      (seen_titles (heap s) recs)))
  /\ (exists out,
        fst (_merge_matching_recordings interleaved interleaved_state) = Ok out
        /\ omap (bucket_of (heap interleaved_state)) interleaved
           = [("A", "x"); ("B", "y"); ("A", "z")]
        /\ omap (bucket_of (heap interleaved_state)) out
           = [("A", "x"); ("A", "z"); ("B", "y")]).
Proof.
  intros Hc. split.
  - destruct (merge_spec recs s Hc) as (s' & E & T & _).
    exists (merged (heap s) recs), s'. split; [done|].
    apply merged_buckets. intros l. by apply touched_by_ids with (touched recs).
  - eexists. split; [vm_compute; reflexivity|]. split; vm_compute; reflexivity.
Qed.

Lemma merged_order_is_title_major_witness :
  exists out s',
    _merge_matching_recordings interleaved interleaved_state = (Ok out, s')
    /\ map (bucket_of (heap s')) out
       = map Some (flat_map (fun t => map (pair t)
                                        (seen_keys (heap interleaved_state) t interleaved))
                     (seen_titles (heap interleaved_state) interleaved)).
Proof.
  apply (proj1 (merged_order_is_title_major interleaved interleaved_state
                  ltac:(repeat constructor; eexists; reflexivity))).
Defined.

(** C1 (as the code has it). Two recordings with the same title and the
    same sequence of artist ids (a missing id counting as ""), from whichever
    result entries, are filed in the same bucket; the merger returns exactly
    one merged recording for that bucket, and its release groups are the
    Release Group Filter applied to the first-occurrence deduplication of the
    concatenation, in encounter order, of the release groups of the
    recordings of that bucket: of the two recordings alone when no other
    recording shares their key. *)
Theorem matching_recordings_are_merged
    (res : list ResultEntry) (s : state) (r1 r2 : Recording)
    (t : string) (a1 a2 : list loc) :
  contract (list_helper.flatten (omap recordings res)) ->
  r1 ∈ list_helper.flatten (omap recordings res) ->
  r2 ∈ list_helper.flatten (omap recordings res) ->
  rec_title r1 = Some t -> rec_title r2 = Some t ->
  rec_artists r1 = Some a1 -> rec_artists r2 = Some a2 ->
  map (id_or_empty (heap s)) a1 = map (id_or_empty (heap s)) a2 ->
  exists out s' m,
    let recs := list_helper.flatten (omap recordings res) in
    let k := artist_key (heap s) a1 in
    _extract_recordings res s = (Ok out, s')
    /\ filter (fun m' => bucket_of (heap s') m' = Some (t, k)) out = [m]
    /\ r1 ∈ members (heap s) t k recs
    /\ r2 ∈ members (heap s) t k recs
    /\ rec_releasegroups m
       = Some (_filter_out_compilations_from_releasegroups
                 (list_helper.remove_duplicate_dicts
                    (concat (omap rec_releasegroups (members (heap s) t k recs)))))
    /\ (forall g1 g2,
          members (heap s) t k recs = [r1; r2] ->
          rec_releasegroups r1 = Some g1 -> rec_releasegroups r2 = Some g2 ->
          rec_releasegroups m
          = Some (_filter_out_compilations_from_releasegroups
                    (list_helper.remove_duplicate_dicts (g1 ++ g2)))).
Proof.
  intros Hc H1 H2 Ht1 Ht2 Ha1 Ha2 Hids.
  set (recs := list_helper.flatten (omap recordings res)) in *.
  set (k := artist_key (heap s) a1).
  destruct (extract_spec res s Hc) as (s' & E & T & _). fold recs in E, T.
  assert (bucket_of (heap s) r1 = Some (t, k)) as Hb1
      by (by apply bucket_of_complete).
  assert (bucket_of (heap s) r2 = Some (t, k)) as Hb2.
  { rewrite (bucket_of_complete (heap s) r2 t a2 Ht2 Ha2).
    unfold k, artist_key. by rewrite Hids. }
  assert (k ∈ seen_keys (heap s) t recs) as Hk by (apply seen_keys_elem; eauto).
  assert (forall l, id_or_empty (heap s') l = id_or_empty (heap s) l) as Hh.
  { intros l. by apply touched_by_ids with (touched recs). }
  exists (merged (heap s) recs), s', (merged_of (heap s) recs t k). cbn zeta.
  split_and!; [done | | by apply members_elem | by apply members_elem | done |].
  - apply filter_unique_at.
    + by apply merged_buckets_NoDup.
    + apply merged_elem. exists t, k. split_and!; [|done|done].
      apply seen_titles_elem. eauto.
    + by apply bucket_of_merged.
  - intros g1 g2 Em Hg1 Hg2. unfold merged_of. cbn. fold recs. rewrite Em.
    cbn. rewrite Hg1, Hg2. cbn. by rewrite app_nil_r.
Qed.

Lemma matching_recordings_are_merged_witness :
  exists out s' m,
    _extract_recordings same_track same_track_state = (Ok out, s')
    /\ rec_releasegroups m = Some [album_g2].
Proof.
  destruct (matching_recordings_are_merged same_track same_track_state
              (mkRecording (Some "Foo") (Some [0]) (Some [compilation]))
              (mkRecording (Some "Foo") (Some [1]) (Some [album_g2]))
              "Foo" [0] [1])
    as (out & s' & m & E & _ & _ & _ & Hg & _).
  - repeat constructor; eexists; reflexivity.
  - left.
  - right. left.
  - reflexivity.
  - reflexivity.
  - reflexivity.
  - reflexivity.
  - reflexivity.
  - exists out, s', m. split; [exact E | exact Hg].
Defined.

(** C1 as stated fails: the merged release groups of a compilation and an
    album of the same track are the album alone, not the deduplicated
    concatenation of both. *)
Lemma merged_releasegroups_are_filtered :
  fst (_extract_recordings same_track same_track_state)
  = Ok [mkRecording (Some "Foo") (Some [0]) (Some [album_g2])]
  /\ list_helper.remove_duplicate_dicts ([compilation] ++ [album_g2])
     = [compilation; album_g2]
  /\ Some [album_g2]
     <> Some (list_helper.remove_duplicate_dicts ([compilation] ++ [album_g2])).
Proof. split_and!; [vm_compute; reflexivity | vm_compute; reflexivity | discriminate]. Qed.

(** ** Further facts: the registry, submission and the whole lookup *)

Lemma append_results_Ok rgs n t acc s out s' :
  for_each (fun results releasegroup =>
              r <- lift (_get_result_for_releasegroup releasegroup n t) ;;
              ret (results ++ [r])) rgs acc s = (Ok out, s') ->
  s' = s /\ exists new, out = acc ++ new
                        /\ Forall (fun tm => title tm = t /\ artist tm = n) new.
Proof.
  revert acc. induction rgs as [|g rgs IH]; intros acc; simpl.
  - intros [= <- <-]. split; [done|]. exists []. by rewrite app_nil_r.
  - unfold bind at 1, lift at 1.
    destruct (_get_result_for_releasegroup g n t) as [tm|e] eqn:E; [|done].
    unfold bind at 1, ret at 1. intros H.
    destruct (IH _ H) as (-> & new & -> & Hnew). split; [done|].
    exists (tm :: new). rewrite <- app_assoc. split; [done|].
    constructor; [|done]. unfold _get_result_for_releasegroup in E.
    destruct (match rg_artists g with Some _ => _ | None => _ end); [|done].
    cbn in E. by injection E as <-.
Qed.

Lemma grows_refl reg : grows reg reg.
Proof. exists []. by rewrite app_nil_r. Qed.

Lemma grows_trans r1 r2 r3 : grows r1 r2 -> grows r2 r3 -> grows r1 r3.
Proof.
  intros (n1 & -> & H1) (n2 & -> & H2). exists (n1 ++ n2).
  rewrite app_assoc. auto.
Qed.

Lemma grows_elem r1 r2 k : grows r1 r2 -> k ∈ r1 -> k ∈ r2.
Proof. intros (n & -> & _) H. apply elem_of_app. auto. Qed.

Lemma register_grows key s :
  grows (titles_identified_by_acoustid s)
        (titles_identified_by_acoustid (snd (register key s)))
  /\ key ∈ titles_identified_by_acoustid (snd (register key s)).
Proof.
  rewrite register_spec. simpl. case_decide as Hin.
  - split; [apply grows_refl | done].
  - split.
    + exists [key]. split; [done|]. intros Hnd. apply NoDup_app.
      split_and!; [done | | apply NoDup_singleton].
      intros x Hx ->%list_elem_of_singleton. done.
    + apply elem_of_app. right. by left.
Qed.

Lemma results_body_grows acc r s :
  grows (titles_identified_by_acoustid s)
        (titles_identified_by_acoustid (snd (results_body acc r s))).
Proof.
  unfold results_body.
  destruct (rec_artists r) as [a|], (rec_title r) as [t|]; try apply grows_refl.
  unfold bind at 1, deref at 1. unfold bind at 1, lift at 1.
  destruct (_join_artist_names _) as [n|e]; [|apply grows_refl].
  unfold bind at 1.
  pose proof (register_grows (t +:+ "_" +:+ n) s) as [Hg _].
  destruct (register (t +:+ "_" +:+ n) s) as [[[]|e] s1] eqn:E;
    [|rewrite register_spec in E; done].
  unfold bind at 1, lift at 1.
  destruct (rec_releasegroups r); cbn [getitem]; [|done].
  by rewrite append_results_state.
Qed.

Lemma results_body_Ok acc r s out s' :
  results_body acc r s = (Ok out, s') ->
  exists new,
    out = acc ++ new
    /\ Forall (fun tm => title tm +:+ "_" +:+ artist tm
                         ∈ titles_identified_by_acoustid s') new.
Proof.
  unfold results_body.
  destruct (rec_artists r) as [a|], (rec_title r) as [t|];
    try (intros [= <- <-]; exists []; by rewrite app_nil_r).
  unfold bind at 1, deref at 1. unfold bind at 1, lift at 1.
  destruct (_join_artist_names _) as [n|e]; [|done].
  unfold bind at 1.
  pose proof (register_grows (t +:+ "_" +:+ n) s) as [_ Hin].
  destruct (register (t +:+ "_" +:+ n) s) as [[[]|e] s1] eqn:E;
    [|rewrite register_spec in E; done].
  unfold bind at 1, lift at 1.
  destruct (rec_releasegroups r); cbn [getitem]; [|done].
  intros H. apply append_results_Ok in H as (-> & new & -> & Hnew).
  exists new. split; [done|]. eapply Forall_impl; [exact Hnew|].
  intros tm [-> ->]. exact Hin.
Qed.

Lemma builder_loop_grows recs acc s :
  grows (titles_identified_by_acoustid s)
        (titles_identified_by_acoustid (snd (for_each results_body recs acc s))).
Proof.
  revert acc s. induction recs as [|r recs IH]; intros acc s; simpl; [apply grows_refl|].
  unfold bind. pose proof (results_body_grows acc r s) as H.
  destruct (results_body acc r s) as [[acc'|e] s1]; simpl in *; [|done].
  eapply grows_trans; [exact H | apply IH].
Qed.

Lemma builder_loop_Ok recs acc s out s' :
  for_each results_body recs acc s = (Ok out, s') ->
  exists new,
    out = acc ++ new
    /\ Forall (fun tm => title tm +:+ "_" +:+ artist tm
                         ∈ titles_identified_by_acoustid s') new.
Proof.
  revert acc s. induction recs as [|r recs IH]; intros acc s; simpl.
  - intros [= <- <-]. exists []. by rewrite app_nil_r.
  - unfold bind. destruct (results_body acc r s) as [[acc'|e] s1] eqn:E; [|done].
    intros H. apply results_body_Ok in E as (n1 & -> & H1).
    pose proof (builder_loop_grows recs (acc ++ n1) s1) as Hg. rewrite H in Hg. simpl in Hg.
    apply IH in H as (n2 & -> & H2). exists (n1 ++ n2). rewrite app_assoc.
    split; [done|]. apply Forall_app. split; [|done].
    eapply Forall_impl; [exact H1|]. intros tm Htm. by eapply grows_elem.
Qed.

Lemma merge_registry recs s :
  titles_identified_by_acoustid (snd (_merge_matching_recordings recs s))
  = titles_identified_by_acoustid s.
Proof.
  destruct (decide (contract recs)) as [Hc|Hc].
  - destruct (merge_spec recs s Hc) as (s' & -> & _ & R). done.
  - destruct (first_without_releasegroups recs Hc) as (pre & r & post & -> & Hp & Hr & Hg).
    destruct (merge_fail pre r post s Hp Hr Hg) as (s' & -> & _ & R). done.
Qed.

Lemma parse_Ok data s out s' :
  _parse_lookup_result data s = (Ok out, s') ->
  exists res recs s1,
    status data = Some "ok" /\ results data = Some res
    /\ _extract_recordings res s = (Ok recs, s1)
    /\ _get_results_for_recordings recs s1 = (Ok out, s').
Proof.
  unfold _parse_lookup_result. unfold bind at 1, lift at 1.
  destruct (status data) as [st|]; cbn [getitem]; [|done].
  destruct (String.eqb_spec st "ok") as [->|Hne]; cbn [negb]; [|done].
  destruct (results data) as [res|]; [|done].
  unfold bind. destruct (_extract_recordings res s) as [[recs|e] s1] eqn:E; [|done].
  intros H. exists res, recs, s1. done.
Qed.

Lemma parse_registry_grows data s :
  grows (titles_identified_by_acoustid s)
        (titles_identified_by_acoustid (snd (_parse_lookup_result data s))).
Proof.
  unfold _parse_lookup_result. unfold bind at 1, lift at 1.
  destruct (status data) as [st|]; cbn [getitem]; [|apply grows_refl].
  destruct (negb (String.eqb st "ok")); [apply grows_refl|].
  destruct (results data) as [res|]; [|apply grows_refl].
  unfold bind, _extract_recordings.
  pose proof (merge_registry (list_helper.flatten (omap recordings res)) s) as R.
  destruct (_merge_matching_recordings _ s) as [[recs|e] s1]; simpl in R;
    [|simpl; rewrite R; apply grows_refl].
  rewrite <- R. apply builder_loop_grows.
Qed.

Lemma parse_heap_after_merge data res s :
  status data = Some "ok" -> results data = Some res ->
  heap (snd (_parse_lookup_result data s))
  = heap (snd (_extract_recordings res s)).
Proof.
  intros Hst Hres. rewrite (parse_ok data res s Hst Hres). unfold bind.
  destruct (_extract_recordings res s) as [[recs|e] s1]; [|done].
  apply builder_loop_heap.
Qed.

Lemma remove_duplicate_dicts_snoc {A} `{EqDecision A} (l : list A) x :
  list_helper.remove_duplicate_dicts (l ++ [x])
  = if decide (x ∈ list_helper.remove_duplicate_dicts l)
    then list_helper.remove_duplicate_dicts l
    else list_helper.remove_duplicate_dicts l ++ [x].
Proof. unfold list_helper.remove_duplicate_dicts. by rewrite fold_left_app. Qed.

Lemma remove_duplicate_dicts_elem {A} `{EqDecision A} (l : list A) x :
  x ∈ list_helper.remove_duplicate_dicts l <-> x ∈ l.
Proof.
  induction l as [|y l IH] using rev_ind; [done|].
  rewrite remove_duplicate_dicts_snoc, elem_of_app, list_elem_of_singleton.
  destruct (decide (y ∈ list_helper.remove_duplicate_dicts l)) as [Hin|Hin].
  - split; [tauto|]. intros [Hk| ->]; [tauto | done].
  - rewrite elem_of_app, list_elem_of_singleton. tauto.
Qed.

Lemma filter_out_compilations_elem rgs g :
  g ∈ _filter_out_compilations_from_releasegroups rgs -> g ∈ rgs.
Proof.
  unfold _filter_out_compilations_from_releasegroups.
  destruct (negb _); [|done]. by intros [_ ?]%list_elem_of_filter.
Qed.

Lemma touched_by_names A h h' l : touched_by A h h' -> artist_name (h' l) = artist_name (h l).
Proof. intros H. rewrite (H l). by case_decide. Qed.

Lemma joined_names_ext (h h' : loc -> Artist) (a : list loc) :
  (forall l, artist_name (h' l) = artist_name (h l)) ->
  joined_names (map h' a) = joined_names (map h a).
Proof.
  intros H. unfold joined_names. f_equal.
  induction a as [|l a IH]; [done|]. cbn. by rewrite H, IH.
Qed.

Lemma named_ext (h h' : loc -> Artist) (a : list loc) :
  (forall l, artist_name (h' l) = artist_name (h l)) ->
  named (map h a) -> named (map h' a).
Proof.
  intros H. unfold named. induction a as [|l a IH]; simpl; [done|].
  intros [Hl Ha]%Forall_cons. constructor; [by rewrite H | by apply IH].
Qed.

Lemma tracks_of_ext h h' m :
  (forall l, artist_name (h' l) = artist_name (h l)) ->
  tracks_of h' m = tracks_of h m.
Proof.
  intros H. unfold tracks_of.
  destruct (rec_artists m), (rec_title m), (rec_releasegroups m); try done.
  by rewrite (joined_names_ext h h').
Qed.

Lemma record_key_ext h h' reg m :
  (forall l, artist_name (h' l) = artist_name (h l)) ->
  record_key h' reg m = record_key h reg m.
Proof.
  intros H. unfold record_key, registry_key.
  destruct (rec_artists m), (rec_title m); try done.
  by rewrite (joined_names_ext h h').
Qed.

Lemma fold_record_key_ext h h' ms reg :
  (forall l, artist_name (h' l) = artist_name (h l)) ->
  fold_left (record_key h') ms reg = fold_left (record_key h) ms reg.
Proof.
  intros H. revert reg. induction ms as [|m ms IH]; intros reg; simpl; [done|].
  by rewrite IH, (record_key_ext h h').
Qed.

(** The merged recordings of buildable recordings are buildable. *)
Lemma merged_buildable h recs :
  Forall (buildable h) recs -> Forall (buildable h) (merged h recs).
Proof.
  intros Hb. rewrite Forall_forall in Hb. apply Forall_forall.
  intros m (t & k & Ht & Hk & ->)%merged_elem.
  destruct (members_first h recs t k Hk) as (first & later & Em).
  assert (forall r, r ∈ members h t k recs ->
            exists a rgs, rec_artists r = Some a /\ named (map h a)
                          /\ rec_releasegroups r = Some rgs /\ Forall rg_named rgs) as Hm.
  { intros r [Hbk Hr]%members_elem.
    apply bucket_of_Some in Hbk as (Htr & a & Ha & _).
    specialize (Hb r Hr). unfold buildable in Hb. rewrite Ha, Htr in Hb.
    destruct Hb as (Hn & rgs & Hg & Hrgs). eauto 10. }
  destruct (Hm first) as (a & rgs & Ha & Hn & _); [rewrite Em; left|].
  unfold buildable, merged_of. cbn [rec_artists rec_title rec_releasegroups].
  replace (head (members h t k recs)) with (Some first) by (by rewrite Em).
  cbn [mbind option_bind]. rewrite Ha. split; [done|]. eexists. split; [done|].
  apply Forall_forall. intros g Hg.
  apply filter_out_compilations_elem in Hg.
  rewrite remove_duplicate_dicts_elem in Hg.
  rewrite list_elem_of_In in Hg. apply in_concat in Hg as (gs & Hgs & Hg).
  rewrite <- list_elem_of_In in Hgs. rewrite list_elem_of_omap in Hgs.
  destruct Hgs as (r & Hr & Hrg).
  destruct (Hm r Hr) as (_ & rgs' & _ & _ & Hrg' & Hall).
  rewrite Hrg' in Hrg. injection Hrg as <-.
  rewrite Forall_forall in Hall. apply Hall. by apply list_elem_of_In.
Qed.

Lemma buildable_contract h recs : Forall (buildable h) recs -> contract recs.
Proof.
  unfold contract. intros Hf. eapply Forall_impl; [exact Hf|]. cbn beta.
  intros r Hb [[t Ht] [a Ha]].
  unfold buildable in Hb. rewrite Ha, Ht in Hb. destruct Hb as (_ & rgs & -> & _). eauto.
Qed.

Lemma buildable_ext h h' r :
  (forall l, artist_name (h' l) = artist_name (h l)) ->
  buildable h r -> buildable h' r.
Proof.
  intros H. unfold buildable. destruct (rec_artists r), (rec_title r); try done.
  intros [Hn Hr]. split; [by apply (named_ext h h')|done].
Qed.

(** The whole lookup on a well-formed response. *)
Lemma parse_spec data res s :
  status data = Some "ok" -> results data = Some res ->
  Forall (buildable (heap s)) (list_helper.flatten (omap recordings res)) ->
  exists s',
    _parse_lookup_result data s
    = (Ok (flat_map (tracks_of (heap s))
             (merged (heap s) (list_helper.flatten (omap recordings res)))), s')
    /\ touched_by (touched (list_helper.flatten (omap recordings res))) (heap s) (heap s')
    /\ titles_identified_by_acoustid s'
       = fold_left (record_key (heap s))
           (merged (heap s) (list_helper.flatten (omap recordings res)))
           (titles_identified_by_acoustid s).
Proof.
  intros Hst Hres Hb. set (recs := list_helper.flatten (omap recordings res)) in *.
  destruct (extract_spec res s (buildable_contract _ _ Hb)) as (s1 & E & T & R).
  fold recs in E, T.
  assert (forall l, artist_name (heap s1 l) = artist_name (heap s l)) as Hn.
  { intros l. by apply touched_by_names with (touched recs). }
  eexists. split_and!.
  - rewrite (parse_ok data res s Hst Hres), (bind_Ok _ _ _ _ _ E).
    rewrite builder_spec.
    + f_equal. f_equal. apply flat_map_ext_elem. intros m _. by apply tracks_of_ext.
    + eapply Forall_impl; [apply merged_buildable, Hb|].
      intros m. by apply buildable_ext.
  - done.
  - simpl. rewrite R. by apply fold_record_key_ext.
Qed.

Lemma omap_ext_fun {A B} (f g : A -> option B) (l : list A) :
  (forall x, f x = g x) -> omap f l = omap g l.
Proof. intros H. induction l as [|x l IH]; [done|]. cbn. by rewrite H, IH. Qed.

Section heap_ext.
Variables h h' : loc -> Artist.
Hypothesis same_ids : forall l, id_or_empty h' l = id_or_empty h l.

Lemma bucket_of_ext r : bucket_of h' r = bucket_of h r.
Proof.
  unfold bucket_of. destruct (rec_title r), (rec_artists r); try done.
  by rewrite (artist_key_ext h h').
Qed.

Lemma members_ext t k recs : members h' t k recs = members h t k recs.
Proof. unfold members. apply list_filter_iff. intros r. by rewrite bucket_of_ext. Qed.

Lemma seen_titles_ext recs : seen_titles h' recs = seen_titles h recs.
Proof.
  unfold seen_titles. f_equal. apply omap_ext_fun. intros r. by rewrite bucket_of_ext.
Qed.

Lemma seen_keys_ext t recs : seen_keys h' t recs = seen_keys h t recs.
Proof.
  unfold seen_keys. f_equal. apply omap_ext_fun. intros r. by rewrite bucket_of_ext.
Qed.

Lemma merged_ext recs : merged h' recs = merged h recs.
Proof.
  unfold merged. rewrite seen_titles_ext. apply flat_map_ext_elem. intros t _.
  rewrite seen_keys_ext. apply map_ext_elem. intros k _.
  unfold merged_of. by rewrite members_ext.
Qed.
End heap_ext.

Lemma touched_by_twice A h h1 h2 l :
  touched_by A h h1 -> touched_by A h1 h2 -> h2 l = h1 l.
Proof.
  intros H1 H2. rewrite (H2 l), (H1 l). case_decide; [|done].
  apply with_default_id_idem.
Qed.

Lemma fold_record_key_present h ms reg :
  (forall m k, m ∈ ms -> registry_key h m = Some k -> k ∈ reg) ->
  fold_left (record_key h) ms reg = reg.
Proof.
  induction ms as [|m ms IH]; intros H; simpl; [done|].
  assert (record_key h reg m = reg) as ->.
  { unfold record_key. destruct (registry_key h m) as [k|] eqn:E; [|done].
    rewrite decide_True; [done|]. apply (H m k); [left|done]. }
  apply IH. intros m' k Hm. apply H. by right.
Qed.

Lemma record_key_grows h reg m : grows reg (record_key h reg m).
Proof.
  unfold record_key. destruct (registry_key h m) as [k|]; [|apply grows_refl].
  case_decide as Hin; [apply grows_refl|].
  exists [k]. split; [done|]. intros Hnd. apply NoDup_app.
  split_and!; [done | | apply NoDup_singleton].
  intros x Hx ->%list_elem_of_singleton. done.
Qed.

Lemma fold_record_key_grows h ms reg : grows reg (fold_left (record_key h) ms reg).
Proof.
  revert reg. induction ms as [|m ms IH]; intros reg; simpl; [apply grows_refl|].
  eapply grows_trans; [apply record_key_grows | apply IH].
Qed.

Lemma fold_record_key_elem h ms reg m k :
  m ∈ ms -> registry_key h m = Some k -> k ∈ fold_left (record_key h) ms reg.
Proof.
  revert reg. induction ms as [|m0 ms IH]; intros reg Hm Hk; [by apply elem_of_nil in Hm|].
  simpl. apply elem_of_cons in Hm as [->|Hm]; [|by apply IH].
  eapply grows_elem; [apply fold_record_key_grows|].
  unfold record_key. rewrite Hk. case_decide; [done|].
  apply elem_of_app. right. by left.
Qed.

Lemma for_each_all_skip {A B} (body : A -> B -> M A) l acc s :
  Forall (fun x => forall acc s, body acc x s = (Ok acc, s)) l ->
  for_each body l acc s = (Ok acc, s).
Proof.
  induction 1 as [|x l Hx Hl IH]; simpl; [done|].
  by rewrite (bind_Ok _ _ _ _ _ (Hx acc s)).
Qed.

Lemma names_raises artists :
  ~ named artists ->
  rcomprehension (fun a => getitem "name" (artist_name a)) artists
  = Raise (KeyError "name").
Proof.
  induction artists as [|a artists IH]; intros H.
  - exfalso. apply H. constructor.
  - cbn. destruct (artist_name a) as [n|] eqn:E; cbn; [|done].
    rewrite IH; [done|]. intros Hn. apply H. constructor; [by eexists|done].
Qed.

Lemma submit_registered {duration_t : Type}
    (fingerprint_file : string -> call_result (duration_t * string))
    (acoustid_submit : string -> string -> QueryParams duration_t -> call_result unit)
    (file_name : string) (metadata : Metadata) (api_key user_key t a : string)
    (s : state) :
  md_title metadata = Some t -> md_artist metadata = Some a ->
  t +:+ "_" +:+ a ∈ titles_identified_by_acoustid s ->
  submit fingerprint_file acoustid_submit file_name metadata api_key user_key s
  = (Returned false, s, []).
Proof.
  intros Ht Ha Hin. unfold submit. rewrite Ht, Ha. by rewrite decide_True.
Qed.


(** ** Further properties of the module *)

(** X1. [_join_artist_names] returns the names joined with "; " when every
    artist dict has a name, and raises [KeyError "name"] otherwise; nothing
    else can happen. *)
Theorem join_artist_names_total (artists : list Artist) :
  _join_artist_names artists
  = if decide (Forall (fun a => is_Some (artist_name a)) artists)
    then Ok (String.concat "; " (omap artist_name artists))
    else Raise (KeyError "name").
Proof.
  case_decide as H.
  - by apply join_artist_names_ok.
  - unfold _join_artist_names. by rewrite names_raises.
Qed.

(** X2. [_get_result_for_releasegroup] fails only on a release group whose
    own artists list holds an artist dict without a name, with
    [KeyError "name"]; a release group without artists never fails, and the
    artist and title it is given are passed on unchanged. *)
Theorem get_result_for_releasegroup_total
    (releasegroup : ReleaseGroup) (artist_names t : string) :
  _get_result_for_releasegroup releasegroup artist_names t
  = if decide (match rg_artists releasegroup with
               | Some artists => Forall (fun a => is_Some (artist_name a)) artists
               | None => True
               end)
    then Ok {| artist := artist_names;
               title := t;
               album := match rg_title releasegroup with
                        | Some x => Some x
                        | None => rg_name releasegroup
                        end;
               albumartist :=
                 (fun l => String.concat "; " (omap artist_name l))
                   <$> rg_artists releasegroup |}
    else Raise (KeyError "name").
Proof.
  case_decide as H.
  - by rewrite get_result_for_releasegroup_ok.
  - unfold _get_result_for_releasegroup.
    destruct (rg_artists releasegroup) as [artists|]; [|done].
    unfold _join_artist_names. by rewrite names_raises.
Qed.

(** X3. The Release Group Filter is idempotent. *)
Theorem filter_out_compilations_idempotent (releasegroups : list ReleaseGroup) :
  _filter_out_compilations_from_releasegroups
    (_filter_out_compilations_from_releasegroups releasegroups)
  = _filter_out_compilations_from_releasegroups releasegroups.
Proof.
  unfold _filter_out_compilations_from_releasegroups.
  set (P := fun g => rg_secondarytypes g = None).
  destruct (filter P releasegroups) as [|g0 kept] eqn:E; cbn [length Nat.eqb negb].
  - by rewrite E.
  - assert (filter P (g0 :: kept) = g0 :: kept) as ->; [|done].
    rewrite <- E. rewrite list_filter_filter. apply list_filter_iff. tauto.
Qed.

(** X4. The Release Group Filter only removes: its result is a sublist of
    its input, and it never mixes: either no release group of the result has
    [secondarytypes], or all of them have. *)
Theorem filter_out_compilations_sublist_uniform (releasegroups : list ReleaseGroup) :
  sublist (_filter_out_compilations_from_releasegroups releasegroups) releasegroups
  /\ (Forall (fun g => rg_secondarytypes g = None)
        (_filter_out_compilations_from_releasegroups releasegroups)
      \/ Forall (fun g => rg_secondarytypes g <> None)
           (_filter_out_compilations_from_releasegroups releasegroups)).
Proof.
  unfold _filter_out_compilations_from_releasegroups.
  set (P := fun g => rg_secondarytypes g = None).
  destruct (filter P releasegroups) as [|g0 kept] eqn:E; cbn [length Nat.eqb negb].
  - split; [done|]. right. apply Forall_forall. intros g Hg Hs.
    assert (g ∈ filter P releasegroups) as H by (by apply list_elem_of_filter).
    rewrite E in H. by apply elem_of_nil in H.
  - rewrite <- E. split; [apply sublist_filter|]. left.
    apply Forall_forall. by intros g [? _]%list_elem_of_filter.
Qed.

(** X5. Frame of the two stages: the merger never writes to the submission
    registry and the result builder never writes to an artist dict, on every
    input and whether they return or raise. *)
Theorem merger_and_builder_frames (recs : list Recording) (s : state) :
  titles_identified_by_acoustid (snd (_merge_matching_recordings recs s))
  = titles_identified_by_acoustid s
  /\ heap (snd (_get_results_for_recordings recs s)) = heap s.
Proof. split; [apply merge_registry | apply builder_loop_heap]. Qed.

(** X6. Every merged recording carries a title, artists and release groups,
    no two of them share a (title, artist key) bucket, and there are at most
    as many of them as input recordings. *)
Theorem merged_recordings_complete_and_distinct (recs : list Recording) (s : state) :
  contract recs ->
  exists out s',
    _merge_matching_recordings recs s = (Ok out, s')
    /\ Forall (fun m => is_Some (rec_title m) /\ is_Some (rec_artists m)
                        /\ is_Some (rec_releasegroups m)) out
    /\ NoDup (map (bucket_of (heap s')) out)
    /\ length out <= length recs.
Proof.
  intros Hc. destruct (merge_spec recs s Hc) as (s' & E & T & _).
  assert (forall l, id_or_empty (heap s') l = id_or_empty (heap s) l) as Hh.
  { intros l. by apply touched_by_ids with (touched recs). }
  exists (merged (heap s) recs), s'. split_and!; [done | | |].
  - apply Forall_forall. intros m (t & k & _ & Hk & ->)%merged_elem.
    pose proof (bucket_of_merged (heap s) (heap s') recs t k Hh Hk) as Hb.
    apply bucket_of_Some in Hb as (Ht & a & Ha & _).
    split_and!; [by eexists | by eexists | by eexists].
  - by apply merged_buckets_NoDup.
  - rewrite <- (length_map (bucket_of (heap s'))), (merged_buckets _ _ _ Hh), length_map.
    transitivity (length (omap (bucket_of (heap s)) recs)).
    + apply submseteq_length, NoDup_submseteq.
      * apply NoDup_pairs; [|intros t]; apply insertion_order_NoDup.
      * intros [t k] (t' & Ht & Hk)%elem_of_flat_map.
        apply list_elem_of_fmap in Hk as (k' & [= <- <-] & Hk).
        apply seen_keys_elem in Hk as (r & Hr & Hb).
        apply list_elem_of_omap. eauto.
    + clear. induction recs as [|r recs IH]; [done|]. cbn.
      destruct (bucket_of (heap s) r); cbn; lia.
Qed.

Lemma merged_recordings_complete_and_distinct_witness :
  exists out s',
    _merge_matching_recordings interleaved interleaved_state = (Ok out, s')
    /\ length out <= 3.
Proof.
  destruct (merged_recordings_complete_and_distinct interleaved interleaved_state)
    as (out & s' & E & _ & _ & L).
  - repeat constructor; eexists; reflexivity.
  - exists out, s'. split; [exact E | exact L].
Defined.

(** X7. A failed merge is not rolled back: when the merger raises
    [KeyError "releasegroups"] at the first recording that has title and
    artists but no release groups, the artist dicts of that recording and of
    the recordings before it have received their default id, and no other
    artist dict has changed. *)
Theorem failed_merge_keeps_partial_ids
    (pre post : list Recording) (r : Recording) (s : state) :
  contract pre -> complete r -> rec_releasegroups r = None ->
  fst (_merge_matching_recordings (pre ++ r :: post) s) = Raise (KeyError "releasegroups")
  /\ forall l,
       heap (snd (_merge_matching_recordings (pre ++ r :: post) s)) l
       = if decide (l ∈ touched (pre ++ [r]) /\ artist_id (heap s l) = None)
         then {| artist_id := Some ""; artist_name := artist_name (heap s l) |}
         else heap s l.
Proof.
  intros Hp Hr Hg. destruct (merge_fail pre r post s Hp Hr Hg) as (s' & -> & T & _).
  split; [done|]. intros l. by apply touched_by_cases.
Qed.

Lemma failed_merge_keeps_partial_ids_witness :
  heap (snd (_merge_matching_recordings
               ([] ++ mkRecording (Some "Foo") (Some [0]) None
                   :: [mkRecording (Some "Bar") (Some [1]) (Some [])])
               (mkState empty_heap []))) 0
  = mkArtist (Some "") None
  /\ heap (snd (_merge_matching_recordings
                  ([] ++ mkRecording (Some "Foo") (Some [0]) None
                      :: [mkRecording (Some "Bar") (Some [1]) (Some [])])
                  (mkState empty_heap []))) 1
     = mkArtist None None.
Proof.
  pose proof (failed_merge_keeps_partial_ids
                [] [mkRecording (Some "Bar") (Some [1]) (Some [])]
                (mkRecording (Some "Foo") (Some [0]) None) (mkState empty_heap [])
                ltac:(constructor)
                ltac:(split; eexists; reflexivity)
                eq_refl) as [_ H].
  split.
  - exact (eq_trans (H 0) eq_refl).
  - exact (eq_trans (H 1) eq_refl).
Defined.

(** X8. Whatever the response and whatever the outcome, a lookup only
    appends to the submission registry, and only keys that are not in it: a
    registry without duplicates stays without duplicates. *)
Theorem lookup_registry_only_grows (data : LookupResponse) (s : state) :
  exists new,
    titles_identified_by_acoustid (snd (_parse_lookup_result data s))
    = titles_identified_by_acoustid s ++ new
    /\ (NoDup (titles_identified_by_acoustid s) ->
        NoDup (titles_identified_by_acoustid (snd (_parse_lookup_result data s)))).
Proof. apply parse_registry_grows. Qed.

(** X9. A response in which no recording has both a title and artists
    (also: no result entry has recordings, or there are no results) yields
    the empty list and leaves the state as it is. *)
Theorem lookup_without_complete_recordings
    (data : LookupResponse) (res : list ResultEntry) (s : state) :
  status data = Some "ok" -> results data = Some res ->
  Forall (fun r => rec_title r = None \/ rec_artists r = None)
    (list_helper.flatten (omap recordings res)) ->
  _parse_lookup_result data s = (Ok [], s).
Proof.
  intros Hst Hres Hall. rewrite (parse_ok data res s Hst Hres).
  assert (Forall (fun r => ~ complete r) (list_helper.flatten (omap recordings res))) as Hn.
  { eapply Forall_impl; [exact Hall|]. intros r Hr [[t Ht] [a Ha]]. destruct Hr; congruence. }
  unfold bind, _extract_recordings, _merge_matching_recordings. unfold bind.
  rewrite for_each_all_skip.
  - reflexivity.
  - eapply Forall_impl; [exact Hn|]. intros r Hr acc s0. by apply merge_body_incomplete.
Qed.

Lemma lookup_without_complete_recordings_witness :
  _parse_lookup_result
    (mkLookupResponse (Some "ok")
       (Some [mkResultEntry None;
              mkResultEntry (Some [mkRecording None (Some [0]) (Some [album_g2])])]))
    example_a_state
  = (Ok [], example_a_state).
Proof.
  apply (lookup_without_complete_recordings
           (mkLookupResponse (Some "ok")
              (Some [mkResultEntry None;
                     mkResultEntry (Some [mkRecording None (Some [0]) (Some [album_g2])])]))
           [mkResultEntry None;
            mkResultEntry (Some [mkRecording None (Some [0]) (Some [album_g2])])]
           example_a_state eq_refl eq_refl).
  repeat constructor.
Defined.

(** X10. End to end: on a response with status "ok" in which every
    recording with title and artists has release groups and every artist
    dict a name, the lookup returns, bucket by bucket in title-major
    first-insertion order, one record per release group that survives
    deduplication and filtering, built with the artist names of the first
    recording of the bucket; the registry receives the buckets' keys in that
    order. *)
Theorem lookup_end_to_end (data : LookupResponse) (res : list ResultEntry) (s : state) :
  status data = Some "ok" -> results data = Some res ->
  Forall (buildable (heap s)) (list_helper.flatten (omap recordings res)) ->
  fst (_parse_lookup_result data s)
  = Ok (flat_map (tracks_of (heap s))
          (merged (heap s) (list_helper.flatten (omap recordings res))))
  /\ titles_identified_by_acoustid (snd (_parse_lookup_result data s))
     = fold_left (record_key (heap s))
         (merged (heap s) (list_helper.flatten (omap recordings res)))
         (titles_identified_by_acoustid s).
Proof.
  intros Hst Hres Hb. destruct (parse_spec data res s Hst Hres Hb) as (s' & -> & _ & R).
  done.
Qed.

Lemma lookup_end_to_end_witness :
  fst (_parse_lookup_result example_a example_a_state)
  = Ok [ mkTrackMetadata "AC/DC" "Thunderstruck" (Some "The Razor's Edge") None;
         mkTrackMetadata "2Cellos" "Thunderstruck" (Some "Celloverse") None ].
Proof.
  refine (eq_trans (proj1 (lookup_end_to_end example_a _ example_a_state
                             eq_refl eq_refl _)) _).
  - repeat constructor; try (eexists; reflexivity);
      (eexists; split; [reflexivity|repeat constructor]).
  - vm_compute. reflexivity.
Defined.

(** X11. The lookup is idempotent: on a well-formed response, a second
    lookup of the same response from the state the first one left returns
    the same list, appends nothing to the registry and changes no artist
    dict. *)
Theorem lookup_is_idempotent (data : LookupResponse) (res : list ResultEntry) (s : state) :
  status data = Some "ok" -> results data = Some res ->
  Forall (buildable (heap s)) (list_helper.flatten (omap recordings res)) ->
  let first := _parse_lookup_result data s in
  let second := _parse_lookup_result data (snd first) in
  fst second = fst first
  /\ titles_identified_by_acoustid (snd second) = titles_identified_by_acoustid (snd first)
  /\ forall l, heap (snd second) l = heap (snd first) l.
Proof.
  intros Hst Hres Hb. cbn zeta.
  set (recs := list_helper.flatten (omap recordings res)) in *.
  destruct (parse_spec data res s Hst Hres Hb) as (s1 & E1 & T1 & R1). fold recs in E1, T1, R1.
  rewrite E1. cbn [fst snd].
  assert (forall l, artist_name (heap s1 l) = artist_name (heap s l)) as Hn.
  { intros l. by apply touched_by_names with (touched recs). }
  assert (forall l, id_or_empty (heap s1) l = id_or_empty (heap s) l) as Hi.
  { intros l. by apply touched_by_ids with (touched recs). }
  assert (Forall (buildable (heap s1)) recs) as Hb1.
  { eapply Forall_impl; [exact Hb|]. intros r. by apply buildable_ext. }
  destruct (parse_spec data res s1 Hst Hres Hb1) as (s2 & E2 & T2 & R2).
  fold recs in E2, T2, R2. rewrite E2. cbn [fst snd].
  rewrite (merged_ext (heap s) (heap s1) Hi) in *. split_and!.
  - f_equal. apply flat_map_ext_elem. intros m _. by apply tracks_of_ext.
  - rewrite R2. rewrite (fold_record_key_ext (heap s) (heap s1)) by done.
    apply fold_record_key_present. intros m k Hm Hk. rewrite R1.
    by apply fold_record_key_elem with m.
  - intros l. by apply touched_by_twice with (touched recs) (heap s).
Qed.

Lemma lookup_is_idempotent_witness :
  fst (_parse_lookup_result example_a
         (snd (_parse_lookup_result example_a example_a_state)))
  = fst (_parse_lookup_result example_a example_a_state).
Proof.
  refine (proj1 (lookup_is_idempotent example_a _ example_a_state eq_refl eq_refl _)).
  repeat constructor; try (eexists; reflexivity);
    (eexists; split; [reflexivity|repeat constructor]).
Defined.

(** X12. A title and artist whose key is already in the registry is not
    submitted: [submit] returns [False] without fingerprinting the file,
    calling the service or logging, and leaves the state as it is. *)
Theorem submit_refuses_registered_key
    {duration_t : Type}
    (fingerprint_file : string -> call_result (duration_t * string))
    (acoustid_submit : string -> string -> QueryParams duration_t -> call_result unit)
    (file_name : string) (metadata : Metadata) (api_key user_key t a : string)
    (s : state) :
  md_title metadata = Some t -> md_artist metadata = Some a ->
  t +:+ "_" +:+ a ∈ titles_identified_by_acoustid s ->
  submit fingerprint_file acoustid_submit file_name metadata api_key user_key s
  = (Returned false, s, []).
Proof.
  apply submit_registered.
Qed.

(** X13. A key that is not yet in the registry is appended to it before
    anything else happens: whatever the fingerprinting and the service do,
    after [submit] the registry is the old one followed by the key, the
    artist dicts are untouched and the first outside action was to
    fingerprint the file. *)
Theorem submit_registers_fresh_key
    {duration_t : Type}
    (fingerprint_file : string -> call_result (duration_t * string))
    (acoustid_submit : string -> string -> QueryParams duration_t -> call_result unit)
    (file_name : string) (metadata : Metadata) (api_key user_key t a : string)
    (s : state) :
  md_title metadata = Some t -> md_artist metadata = Some a ->
  t +:+ "_" +:+ a ∉ titles_identified_by_acoustid s ->
  let r := submit fingerprint_file acoustid_submit file_name metadata api_key user_key s in
  titles_identified_by_acoustid r.1.2
  = titles_identified_by_acoustid s ++ [t +:+ "_" +:+ a]
  /\ heap r.1.2 = heap s
  /\ head r.2 = Some (FingerprintFile file_name).
Proof.
  intros Ht Ha Hin. cbn zeta. unfold submit. rewrite Ht, Ha.
  rewrite decide_False by done.
  destruct (fingerprint_file file_name) as [[d fp]|[]]; try done.
  destruct (acoustid_submit _ _ _) as [u|[]]; done.
Qed.

(** X14. [submit] returns [True] exactly when the metadata has a title and
    an artist, their key was not registered, the file could be fingerprinted
    and the service accepted the query built from them. *)
Theorem submit_returns_True_iff_both_calls_return
    {duration_t : Type}
    (fingerprint_file : string -> call_result (duration_t * string))
    (acoustid_submit : string -> string -> QueryParams duration_t -> call_result unit)
    (file_name : string) (metadata : Metadata) (api_key user_key : string) (s : state) :
  ((submit fingerprint_file acoustid_submit file_name metadata api_key user_key s).1.1
   = Returned true)
  <-> (exists t a d fp,
         md_title metadata = Some t /\ md_artist metadata = Some a
         /\ ((t +:+ "_" +:+ a) ∉ titles_identified_by_acoustid s)
         /\ fingerprint_file file_name = Returns (d, fp)
         /\ acoustid_submit api_key user_key
              {| q_duration := d; q_fingerprint := fp;
                 q_track := Some t; q_artist := Some a;
                 q_album := get_or_None (md_album metadata);
                 q_albumartist := get_or_None (md_albumartist metadata);
                 q_year := get_or_None (md_year metadata) |}
            = Returns tt).
Proof.
  unfold submit. split.
  - destruct (md_title metadata) as [t|]; [|done].
    destruct (md_artist metadata) as [a|]; [|done].
    case_decide as Hin; [done|].
    destruct (fingerprint_file file_name) as [[d fp]|[]] eqn:Ef; try done.
    destruct (acoustid_submit _ _ _) as [[]|[]] eqn:Es; try done.
    intros _. exists t, a, d, fp. done.
  - intros (t & a & d & fp & -> & -> & Hin & -> & Hs).
    rewrite decide_False by done. by rewrite Hs.
Qed.

(** X15. Metadata without a title, or without an artist, makes [submit]
    raise [KeyError] on the first missing one of the two, before the
    registry is read: state and outside world are untouched. *)
Theorem submit_requires_title_and_artist
    {duration_t : Type}
    (fingerprint_file : string -> call_result (duration_t * string))
    (acoustid_submit : string -> string -> QueryParams duration_t -> call_result unit)
    (file_name : string) (metadata : Metadata) (api_key user_key : string) (s : state) :
  md_title metadata = None \/ md_artist metadata = None ->
  submit fingerprint_file acoustid_submit file_name metadata api_key user_key s
  = (RaisedKeyError (match md_title metadata with Some _ => "artist" | None => "title" end),
     s, []).
Proof.
  intros H. unfold submit.
  destruct (md_title metadata) as [t|]; [|done].
  destruct H as [H|H]; [done|]. by rewrite H.
Qed.

(** X16. A submission is attempted at most once per title and artist: after
    a first [submit], whether it succeeded, failed or raised in the library,
    every further [submit] of the same title and artist returns [False]
    without doing anything, whatever the environment then is. *)
Theorem submission_is_not_retried
    {duration_t : Type}
    (fingerprint_file : string -> call_result (duration_t * string))
    (acoustid_submit : string -> string -> QueryParams duration_t -> call_result unit)
    (fingerprint_file' : string -> call_result (duration_t * string))
    (acoustid_submit' : string -> string -> QueryParams duration_t -> call_result unit)
    (file_name file_name' : string) (metadata metadata' : Metadata)
    (api_key user_key api_key' user_key' t a : string) (s : state) :
  md_title metadata = Some t -> md_artist metadata = Some a ->
  md_title metadata' = Some t -> md_artist metadata' = Some a ->
  let s1 :=
    (submit fingerprint_file acoustid_submit file_name metadata api_key user_key s).1.2 in
  submit fingerprint_file' acoustid_submit' file_name' metadata' api_key' user_key' s1
  = (Returned false, s1, []).
Proof.
  intros Ht Ha Ht' Ha'. cbn zeta.
  apply (submit_registered _ _ _ _ _ _ t a); [done|done|].
  unfold submit. rewrite Ht, Ha. case_decide as Hin; [done|].
  assert (t +:+ "_" +:+ a ∈ titles_identified_by_acoustid s ++ [t +:+ "_" +:+ a]) as H.
  { apply elem_of_app. right. by left. }
  destruct (fingerprint_file file_name) as [[d fp]|[]]; try done.
  destruct (acoustid_submit _ _ _) as [u|[]]; done.
Qed.

(** X17. What the lookup identified is never submitted: after a lookup
    that returned, [submit] on the metadata of any returned track returns
    [False] without fingerprinting, calling the service or changing the
    state. *)
Theorem identified_tracks_are_not_submitted
    {duration_t : Type}
    (fingerprint_file : string -> call_result (duration_t * string))
    (acoustid_submit : string -> string -> QueryParams duration_t -> call_result unit)
    (acoustid_lookup : string -> string -> duration_t -> list string -> result LookupResponse)
    (fingerprint : string) (fingerprint_duration : duration_t) (api_key : string)
    (s s' : state) (out : list TrackMetadata)
    (tm : TrackMetadata) (file_name api_key' user_key : string) :
  lookup acoustid_lookup fingerprint fingerprint_duration api_key s = (Ok out, s') ->
  tm ∈ out ->
  submit fingerprint_file acoustid_submit file_name (metadata_of tm) api_key' user_key s'
  = (Returned false, s', []).
Proof.
  unfold lookup, bind, lift.
  destruct (acoustid_lookup _ _ _ _) as [data|e]; [|done].
  intros (res & recs & s1 & _ & _ & _ & Hb)%parse_Ok Htm.
  apply builder_loop_Ok in Hb as (new & -> & Hnew).
  rewrite Forall_forall in Hnew.
  apply (submit_registered _ _ _ _ _ _ (title tm) (artist tm)); [done|done|].
  apply Hnew. exact Htm.
Qed.

(** X18. What [submit] sends: every query it passes to the service carries
    the title and the artist of the metadata as track and artist (never
    [None]), the album, album artist and year of the metadata when present,
    and the duration and fingerprint computed for the file; it calls the
    service with the keys it was given. *)
Theorem submit_query_carries_metadata
    {duration_t : Type}
    (fingerprint_file : string -> call_result (duration_t * string))
    (acoustid_submit : string -> string -> QueryParams duration_t -> call_result unit)
    (file_name : string) (metadata : Metadata) (api_key user_key : string) (s : state)
    (k u : string) (q : QueryParams duration_t) :
  Submit k u q
  ∈ (submit fingerprint_file acoustid_submit file_name metadata api_key user_key s).2 ->
  k = api_key /\ u = user_key
  /\ is_Some (q_track q) /\ q_track q = md_title metadata
  /\ is_Some (q_artist q) /\ q_artist q = md_artist metadata
  /\ q_album q = get_or_None (md_album metadata)
  /\ q_albumartist q = get_or_None (md_albumartist metadata)
  /\ q_year q = get_or_None (md_year metadata)
  /\ fingerprint_file file_name = Returns (q_duration q, q_fingerprint q).
Proof.
  unfold submit.
  destruct (md_title metadata) as [t|]; [|by intros ?%elem_of_nil].
  destruct (md_artist metadata) as [a|]; [|by intros ?%elem_of_nil].
  case_decide as Hin; [by intros ?%elem_of_nil|].
  destruct (fingerprint_file file_name) as [[d fp]|[]] eqn:Ef; cbn [snd];
    try (intros H; repeat (apply elem_of_cons in H as [H|H]; [done|]);
         by apply elem_of_nil in H).
  assert (forall tl : list (event duration_t),
            (forall x, x ∈ tl -> forall k u q, x <> Submit k u q) ->
            Submit k u q
            ∈ [FingerprintFile file_name;
               Submit api_key user_key
                 {| q_duration := d; q_fingerprint := fp;
                    q_track := Some t; q_artist := Some a;
                    q_album := get_or_None (md_album metadata);
                    q_albumartist := get_or_None (md_albumartist metadata);
                    q_year := get_or_None (md_year metadata) |}] ++ tl ->
            k = api_key /\ u = user_key
            /\ is_Some (q_track q) /\ q_track q = Some t
            /\ is_Some (q_artist q) /\ q_artist q = Some a
            /\ q_album q = get_or_None (md_album metadata)
            /\ q_albumartist q = get_or_None (md_albumartist metadata)
            /\ q_year q = get_or_None (md_year metadata)
            /\ Returns (d, fp) = Returns (q_duration q, q_fingerprint q)) as Hmain.
  { intros tl Htl H. cbn in H.
    apply elem_of_cons in H as [H|H]; [done|].
    apply elem_of_cons in H as [H|H].
    - injection H as -> -> ->. cbn. split_and!; eauto.
    - exfalso. by apply (Htl _ H k u q). }
  destruct (acoustid_submit _ _ _) as [[]|[]] eqn:Es; cbn [snd]; intros H.
  - apply (Hmain []); [by intros x ?%elem_of_nil | by rewrite app_nil_r].
  - apply (Hmain []); [by intros x ?%elem_of_nil | by rewrite app_nil_r].
  - apply (Hmain [LogError FingerprintSubmissionError "AcoustID submission error"]);
      [|done]. by intros x ->%list_elem_of_singleton.
  - apply (Hmain [LogError AcoustidWebServiceError "AcoustID submit error"]);
      [|done]. by intros x ->%list_elem_of_singleton.
  - apply (Hmain []); [by intros x ?%elem_of_nil | by rewrite app_nil_r].
Qed.

(** X19. [submit] keeps the registry free of duplicates and never removes
    from it, and it never writes to an artist dict, whatever its outcome. *)
Theorem submit_registry_only_grows
    {duration_t : Type}
    (fingerprint_file : string -> call_result (duration_t * string))
    (acoustid_submit : string -> string -> QueryParams duration_t -> call_result unit)
    (file_name : string) (metadata : Metadata) (api_key user_key : string) (s : state) :
  let s' :=
    (submit fingerprint_file acoustid_submit file_name metadata api_key user_key s).1.2 in
  (exists new,
     titles_identified_by_acoustid s' = titles_identified_by_acoustid s ++ new
     /\ (NoDup (titles_identified_by_acoustid s) -> NoDup (titles_identified_by_acoustid s')))
  /\ heap s' = heap s.
Proof.
  cbn zeta. unfold submit.
  destruct (md_title metadata) as [t|]; [|split; [apply grows_refl|done]].
  destruct (md_artist metadata) as [a|]; [|split; [apply grows_refl|done]].
  case_decide as Hin; [split; [apply grows_refl|done]|].
  assert (grows (titles_identified_by_acoustid s)
                (titles_identified_by_acoustid s ++ [t +:+ "_" +:+ a])) as Hg.
  { exists [t +:+ "_" +:+ a]. split; [done|]. intros Hnd. apply NoDup_app.
    split_and!; [done | | apply NoDup_singleton].
    intros x Hx ->%list_elem_of_singleton. done. }
  destruct (fingerprint_file file_name) as [[d fp]|[]]; try (split; [exact Hg|done]).
  destruct (acoustid_submit _ _ _) as [u|[]]; split; (exact Hg || done).
Qed.

Lemma submit_refuses_registered_key_witness :
  submit fingerprint_fine submit_fine "song.mp3" thunderstruck "app" "user"
    (mkState empty_heap ["Thunderstruck_AC/DC"])
  = (Returned false, mkState empty_heap ["Thunderstruck_AC/DC"], []).
Proof.
  apply (submit_refuses_registered_key fingerprint_fine submit_fine "song.mp3"
           thunderstruck "app" "user" "Thunderstruck" "AC/DC"
           (mkState empty_heap ["Thunderstruck_AC/DC"]) eq_refl eq_refl).
  left.
Defined.

Lemma submit_registers_fresh_key_witness :
  titles_identified_by_acoustid
    (submit fingerprint_broken submit_fine "song.mp3" thunderstruck "app" "user"
       (mkState empty_heap [])).1.2
  = [] ++ ["Thunderstruck_AC/DC"].
Proof.
  apply (submit_registers_fresh_key fingerprint_broken submit_fine "song.mp3"
           thunderstruck "app" "user" "Thunderstruck" "AC/DC"
           (mkState empty_heap []) eq_refl eq_refl).
  apply not_elem_of_nil.
Defined.

Lemma submit_requires_title_and_artist_witness :
  submit fingerprint_fine submit_fine "song.mp3"
    (mkMetadata None (Some "AC/DC") None None None) "app" "user" (mkState empty_heap [])
  = (RaisedKeyError "title", mkState empty_heap [], []).
Proof.
  apply (submit_requires_title_and_artist fingerprint_fine submit_fine "song.mp3"
           (mkMetadata None (Some "AC/DC") None None None) "app" "user"
           (mkState empty_heap [])).
  left. reflexivity.
Defined.

Lemma submission_is_not_retried_witness :
  submit fingerprint_fine submit_fine "song.mp3" thunderstruck "app" "user"
    (submit fingerprint_broken submit_fine "song.mp3" thunderstruck "app" "user"
       (mkState empty_heap [])).1.2
  = (Returned false,
     (submit fingerprint_broken submit_fine "song.mp3" thunderstruck "app" "user"
        (mkState empty_heap [])).1.2, []).
Proof.
  exact (submission_is_not_retried fingerprint_broken submit_fine
           fingerprint_fine submit_fine "song.mp3" "song.mp3"
           thunderstruck thunderstruck "app" "user" "app" "user"
           "Thunderstruck" "AC/DC" (mkState empty_heap [])
           eq_refl eq_refl eq_refl eq_refl).
Defined.

Lemma identified_tracks_are_not_submitted_witness :
  exists s',
    submit fingerprint_fine submit_fine "song.mp3"
      (metadata_of (mkTrackMetadata "AC/DC" "Thunderstruck" (Some "The Razor's Edge") None))
      "app" "user" s'
    = (Returned false, s', []).
Proof.
  destruct (lookup lookup_example_a "AQADtEmU" 215 "app" example_a_state)
    as [[out|e] s'] eqn:E.
  - exists s'.
    apply (identified_tracks_are_not_submitted fingerprint_fine submit_fine
             lookup_example_a "AQADtEmU" 215 "app" example_a_state s' out _
             "song.mp3" "app" "user" E).
    apply (f_equal fst) in E. vm_compute in E. injection E as <-. left.
  - exfalso. apply (f_equal fst) in E. vm_compute in E. discriminate E.
Defined.

Lemma submit_query_carries_metadata_witness :
  q_track (mkQueryParams 215 "AQADtEmU" (Some "Thunderstruck") (Some "AC/DC")
             (Some "The Razor's Edge") None None)
  = md_title thunderstruck.
Proof.
  apply (submit_query_carries_metadata fingerprint_fine submit_fine "song.mp3"
           thunderstruck "app" "user" (mkState empty_heap []) "app" "user").
  right. left.
Defined.

(** X20. Response validator: on a response that carries a status, a
    status other than "ok" makes the lookup raise the web-service error
    carrying that status, and absent results make it raise a web-service
    error; in both cases nothing is returned and the state (artist dicts and
    submission registry) is the initial one. *)
Theorem parse_lookup_result_rejects_invalid_response
    (data : LookupResponse) (st : string) (s : state) :
  status data = Some st ->
  (st <> "ok" ->
     _parse_lookup_result data s = (Raise (WebServiceError ("status: " +:+ st)), s))
  /\ (results data = None ->
        exists msg, _parse_lookup_result data s = (Raise (WebServiceError msg), s)).
Proof.
  intros Hst. unfold _parse_lookup_result. rewrite Hst.
  unfold bind, lift, getitem, raise. rewrite eqb_decide. split.
  - intros Hne. by rewrite bool_decide_eq_false_2.
  - intros ->. case_bool_decide; simpl; eauto.
Qed.

Lemma parse_lookup_result_rejects_invalid_response_witness :
  _parse_lookup_result (mkLookupResponse (Some "error") (Some [])) example_a_state
  = (Raise (WebServiceError "status: error"), example_a_state)
  /\ exists msg,
       _parse_lookup_result (mkLookupResponse (Some "ok") None) example_a_state
       = (Raise (WebServiceError msg), example_a_state).
Proof.
  split.
  - apply (proj1 (parse_lookup_result_rejects_invalid_response
                    (mkLookupResponse (Some "error") (Some [])) "error"
                    example_a_state eq_refl)).
    discriminate.
  - apply (proj2 (parse_lookup_result_rejects_invalid_response
                    (mkLookupResponse (Some "ok") None) "ok"
                    example_a_state eq_refl)).
    reflexivity.
Defined.

